(** * The word-typing party game of [app.py]: sessions, word assignment,
      submission, round advance and persistence.

    The Flask handlers of [app.py] are embedded as functions from the
    [games] table to a new table and a response.  Everything a handler reads
    from outside the table is an argument: the identifier drawn by [uuid4],
    the clock value of [datetime.utcnow], and the draw of [random.choice].

    Text is [string] holding the UTF-8 encoding of a Python [str].  [strip]
    removes the characters Python's [str.strip()] removes.  [str.lower()]
    depends on the interpreter's case tables, which are no part of [app.py]:
    it is the method [lower] of the class [PyText], and everything below
    holds for whatever function that is. *)

From Stdlib Require Import ZArith QArith String Ascii List Bool Lia.
From stdpp Require Import gmap strings list fin_maps.

Local Open Scope Z_scope.

(** ** Python text *)

(** The bytes of a text, tested against a range or a value. *)
Definition byte_in (c : ascii) (lo hi : nat) : bool :=
  Nat.leb lo (nat_of_ascii c) && Nat.leb (nat_of_ascii c) hi.

Definition byte_is (c : ascii) (n : nat) : bool :=
  Nat.eqb (nat_of_ascii c) n.

(** The characters [str.strip()] removes, by the length of their UTF-8
    encoding: U+0009-000D, U+001C-0020; U+0085, U+00A0; U+1680, U+2000-200A,
    U+2028, U+2029, U+202F, U+205F, U+3000. *)
Definition space1 (c1 : ascii) : bool :=
  byte_in c1 9 13 || byte_in c1 28 32.

Definition space2 (c1 c2 : ascii) : bool :=
  byte_is c1 194 && (byte_is c2 133 || byte_is c2 160).

Definition space3 (c1 c2 c3 : ascii) : bool :=
  (byte_is c1 225 && byte_is c2 154 && byte_is c3 128)
  || (byte_is c1 226 && byte_is c2 128
      && (byte_in c3 128 138 || byte_is c3 168 || byte_is c3 169
          || byte_is c3 175))
  || (byte_is c1 226 && byte_is c2 129 && byte_is c3 159)
  || (byte_is c1 227 && byte_is c2 128 && byte_is c3 128).

(** What follows the first character of [s], when that character is
    whitespace. *)
Definition ws_tail (s : string) : option string :=
  match s with
  | EmptyString => None
  | String c1 r1 =>
      if space1 c1 then Some r1
      else match r1 with
           | EmptyString => None
           | String c2 r2 =>
               if space2 c1 c2 then Some r2
               else match r2 with
                    | EmptyString => None
                    | String c3 r3 =>
                        if space3 c1 c2 c3 then Some r3 else None
                    end
           end
  end.

(** [str.lstrip()] *)
Fixpoint lstrip (s : string) : string :=
  match s with
  | EmptyString => EmptyString
  | String c1 r1 =>
      if space1 c1 then lstrip r1
      else match r1 with
           | EmptyString => s
           | String c2 r2 =>
               if space2 c1 c2 then lstrip r2
               else match r2 with
                    | EmptyString => s
                    | String c3 r3 =>
                        if space3 c1 c2 c3 then lstrip r3 else s
                    end
           end
  end.

(** [str.rstrip()]: the text is cut where what remains is whitespace only. *)
Fixpoint rstrip (s : string) : string :=
  match s with
  | EmptyString => EmptyString
  | String c r =>
      if String.eqb (lstrip s) "" then EmptyString else String c (rstrip r)
  end.

(** [str.strip()] *)
Definition strip (s : string) : string := rstrip (lstrip s).

(** [str.lower()] on ASCII text: [A-Z] go to [a-z], every other byte stays. *)
Definition lower_char (c : ascii) : ascii :=
  let n := nat_of_ascii c in
  if Nat.leb 65 n && Nat.leb n 90 then ascii_of_nat (n + 32) else c.

Fixpoint ascii_lower (s : string) : string :=
  match s with
  | EmptyString => EmptyString
  | String c r => String (lower_char c) (ascii_lower r)
  end.

(** Python's [str.lower()].  Its case tables are part of the interpreter, not
    of [app.py], so the development takes the function as given, with the two
    facts it uses: the empty text is lower-cased to itself, and to nothing
    else.  The behaviour of the code is the instance at Python's own
    function. *)
Class PyText : Type := {
  lower : string → string;
  lower_empty : lower "" = "";
  lower_nonempty : ∀ s : string, lower s = "" → s = ""
}.

Definition ascii_lower_nonempty (s : string) : ascii_lower s = "" → s = "" :=
  match s with
  | EmptyString => fun _ => eq_refl
  | String c r =>
      fun H =>
        False_ind _
          (eq_ind (String (lower_char c) (ascii_lower r))
             (fun t => match t with
                       | EmptyString => False
                       | String _ _ => True
                       end)
             I EmptyString H)
  end.

(** An instance for running sample requests.  On a text whose bytes are all
    below 128 [ascii_lower] is [str.lower()]; on other texts it is not, and
    no sample run lower-cases such a text.  No theorem stated for every
    [PyText] depends on it. *)
Definition ascii_text : PyText :=
  {| lower := ascii_lower;
     lower_empty := eq_refl;
     lower_nonempty := ascii_lower_nonempty |}.

(** Truth value of a Python [str]: only the empty string is false. *)
Definition truthy (s : string) : bool := negb (String.eqb s "").

(** Truth value of a [str] or [None]. *)
Definition truthy_opt (o : option string) : bool :=
  match o with
  | Some s => truthy s
  | None => false
  end.

(** ** Python numbers and sequences *)

(** The value of [float(...)]: a finite float is a rational, and Python
    compares a float with an [int] exactly. *)
Inductive pyfloat : Type :=
  | FFinite (q : Q)
  | FPosInf
  | FNegInf
  | FNaN.

(** [elapsed <= timer] with [timer] an [int]. *)
Definition float_le_int (e : pyfloat) (t : Z) : bool :=
  match e with
  | FFinite q => Qle_bool q (inject_Z t)
  | FNegInf => true
  | FPosInf => false
  | FNaN => false
  end.

(** [l[i]]: negative indices count from the end; [None] is [IndexError]. *)
Definition py_index {A : Type} (l : list A) (i : Z) : option A :=
  let n := Z.of_nat (length l) in
  if (0 <=? i) && (i <? n) then l !! Z.to_nat i
  else if (- n <=? i) && (i <? 0) then l !! Z.to_nat (n + i)
  else None.

(** [random.choice(l)] under the draw [rnd]; [None] is the [IndexError]
    raised on an empty sequence. *)
Definition choice {A : Type} (rnd : nat) (l : list A) : option A :=
  l !! (rnd mod length l)%nat.

(** [d.get(k, 0)] *)
Definition get0 (d : gmap string Z) (k : string) : Z := default 0 (d !! k).

(** [not l] for a list *)
Definition is_nil {A : Type} (l : list A) : bool :=
  match l with
  | [] => true
  | _ :: _ => false
  end.

(** ** Configuration *)

Definition DB_PATH : string := "games.db".

Definition WORD_POOLS : list (list string) :=
  [ ["cat"; "dog"; "bat"];
    ["frog"; "tree"; "lamp"];
    ["planet"; "rocket"; "python"];
    ["computer"; "language"; "keyboard"];
    ["adventure"; "chocolate"; "explosion"] ].

Definition TIMERS : list Z := [5; 4; 3; 2; 1].

(** ** Session state *)

(** One entry of the [history] log. *)
Inductive event : Type :=
  | EvAssign (round : Z) (player word ts : string)
  | EvAdvance (round_advance : Z) (ts : string).

(** The [state] dictionary a handler works on. *)
Record State : Type := mkState {
  players : list string;
  lives : gmap string Z;
  current_round : Z;
  turn_order : list string;
  played_this_round : gset string;
  last_assigned_word : gmap string string;
  used_words_in_round : gset string;
  history : list event;
  created_at : string
}.

(** One row of the [games] table: the sets are stored as JSON lists. *)
Record Row : Type := mkRow {
  row_players : list string;
  row_lives : gmap string Z;
  row_current_round : Z;
  row_turn_order : list string;
  row_played_this_round : list string;
  row_last_assigned : gmap string string;
  row_used_words : list string;
  row_history : list event;
  row_created_at : string
}.

(** The [games] table, keyed by [id]. *)
Abbreviation DB := (gmap string Row).

(** ** Database helpers *)

Definition row_of_state (state : State) : Row :=
  {| row_players := players state;
     row_lives := lives state;
     row_current_round := current_round state;
     row_turn_order := turn_order state;
     row_played_this_round := elements (played_this_round state);
     row_last_assigned := last_assigned_word state;
     row_used_words := elements (used_words_in_round state);
     row_history := history state;
     row_created_at := created_at state |}.

Definition state_of_row (row : Row) : State :=
  {| players := row_players row;
     lives := row_lives row;
     current_round := row_current_round row;
     turn_order := row_turn_order row;
     played_this_round := list_to_set (row_played_this_round row);
     last_assigned_word := row_last_assigned row;
     used_words_in_round := list_to_set (row_used_words row);
     history := row_history row;
     created_at := row_created_at row |}.

(** [INSERT OR REPLACE INTO games] *)
Definition save_game_state (game_id : string) (state : State) (db : DB) : DB :=
  <[game_id := row_of_state state]> db.

(** [SELECT * FROM games WHERE id = ?] *)
Definition load_game_state (game_id : string) (db : DB) : option State :=
  state_of_row <$> db !! game_id.

(** ** Responses *)

Inductive response : Type :=
  | RError (error : string) (code : Z)
  | RCreated (game_id : string) (timers : list Z) (players : list string)
  | RWord (word : string) (round : Z) (timer : Z) (player : string)
          (lives : gmap string Z) (players alive : list string)
  | RSubmit (success : bool) (expected typed : string) (timer : Z)
            (elapsed : pyfloat) (lives : gmap string Z) (current_round : Z)
            (player : string)
  | RStatus (players : list string) (lives : gmap string Z) (current_round : Z)
  | RHistory (history : list event)
  | RCrash.

Definition is_error (r : response) : bool :=
  match r with
  | RError _ _ => true
  | _ => false
  end.

(** ** Routes *)

(** [p for p in state["players"] if state["lives"].get(p, 0) > 0] *)
Definition alive_players (pl : list string) (lv : gmap string Z) : list string :=
  List.filter (fun p => 0 <? get0 lv p) pl.

(** The two loops of the automatic assignment in [get_word]. *)
Definition auto_player (state : State) : option string :=
  match List.find
          (fun p => (0 <? get0 (lives state) p)
                    && negb (bool_decide (is_Some (last_assigned_word state !! p))))
          (turn_order state) with
  | Some p => Some p
  | None => List.find (fun p => 0 <? get0 (lives state) p) (turn_order state)
  end.

(** The player a word request is for: [inl] is the early error return. *)
Definition select_player (state : State) (player_arg : option string)
  : response + option string :=
  match player_arg with
  | Some raw =>
      if truthy raw then
        let player := strip raw in
        if negb (bool_decide (player ∈ players state))
           || (get0 (lives state) player <=? 0)
        then inl (RError "Player not valid or eliminated." 400)
        else inr (Some player)
      else inr (auto_player state)
  | None => inr (auto_player state)
  end.

(** [TIMERS[round_idx] if 0 <= round_idx < len(TIMERS) else TIMERS[-1]] *)
Definition timer_for (round_idx : Z) : option Z :=
  if (0 <=? round_idx) && (round_idx <? Z.of_nat (length TIMERS))
  then py_index TIMERS round_idx
  else py_index TIMERS (-1).

(** [{p: 3 for p in players}] *)
Definition initial_lives (pl : list string) : gmap string Z :=
  foldl (fun d p => <[p := 3]> d) ∅ pl.

(** [[p.strip() for p in players if p and p.strip()]] *)
Definition clean_players (raw : list string) : list string :=
  List.map strip (List.filter (fun p => truthy p && truthy (strip p)) raw).

(** [[w for w in pool if w not in state["used_words_in_round"]]] *)
Definition unused_words (used : gset string) (pool : list string) : list string :=
  List.filter (fun w => negb (bool_decide (w ∈ used))) pool.

(** The assignment stored by [get_word]: the word is owed by [player], marked
    used, and logged. *)
Definition assign_word (state : State) (player word : string)
    (used : gset string) (round_idx : Z) (now : string) : State :=
  {| players := players state;
     lives := lives state;
     current_round := current_round state;
     turn_order := turn_order state;
     played_this_round := played_this_round state;
     last_assigned_word := <[player := word]> (last_assigned_word state);
     used_words_in_round := {[word]} ∪ used;
     history := history state ++ [EvAssign round_idx player word now];
     created_at := created_at state |}.

(** The state changes of [submit_word] once [success] is known: the life
    lost on failure, the player marked as played, the owed word cleared,
    and the round advanced when every alive player has played. *)
Definition resolve_submission (state : State) (player : string)
    (success : bool) (now : string) : State :=
  let lives' :=
    if success then lives state
    else <[player := Z.max 0 (get0 (lives state) player - 1)]> (lives state) in
  let played := {[player]} ∪ played_this_round state in
  let assigned := delete player (last_assigned_word state) in
  let alive := alive_players (players state) lives' in
  if forallb (fun p => bool_decide (p ∈ played)) alive then
    {| players := players state;
       lives := lives';
       current_round := current_round state + 1;
       turn_order := turn_order state;
       played_this_round := ∅;
       last_assigned_word := assigned;
       used_words_in_round := ∅;
       history := history state ++ [EvAdvance (current_round state + 1) now];
       created_at := created_at state |}
  else
    {| players := players state;
       lives := lives';
       current_round := current_round state;
       turn_order := turn_order state;
       played_this_round := played;
       last_assigned_word := assigned;
       used_words_in_round := used_words_in_round state;
       history := history state;
       created_at := created_at state |}.

(** The comparison of [submit_word]. *)
Definition submission_success `{PyText} (typed expected : string)
    (elapsed : pyfloat)
    (timer : Z) : bool :=
  String.eqb (lower (strip typed)) (lower expected) && float_le_int elapsed timer.

Module Route.

Definition create_game (game_id now : string) (raw : list string) (db : DB)
  : DB * response :=
  let pl := clean_players raw in
  if is_nil pl then (db, RError "No players given." 400)
  else
    let state :=
      {| players := pl;
         lives := initial_lives pl;
         current_round := 0;
         turn_order := pl;
         played_this_round := ∅;
         last_assigned_word := ∅;
         used_words_in_round := ∅;
         history := [];
         created_at := now |} in
    (save_game_state game_id state db, RCreated game_id TIMERS pl).

Definition get_word (game_id : string) (player_arg : option string)
    (rnd : nat) (now : string) (db : DB) : DB * response :=
  match load_game_state game_id db with
  | None => (db, RError "Game not found." 404)
  | Some state =>
    let round_idx := current_round state in
    if Z.of_nat (length WORD_POOLS) <=? round_idx
    then (db, RError "No more rounds." 400)
    else
      let alive := alive_players (players state) (lives state) in
      match select_player state player_arg with
      | inl err => (db, err)
      | inr sel =>
        if negb (truthy_opt sel) then (db, RError "No alive players." 400)
        else
          let player := default "" sel in
          match py_index WORD_POOLS round_idx with
          | None => (db, RCrash)
          | Some pool =>
            let unused := unused_words (used_words_in_round state) pool in
            let used := if is_nil unused then ∅ else used_words_in_round state in
            let unused := if is_nil unused then pool else unused in
            match choice rnd unused with
            | None => (db, RCrash)
            | Some word =>
              let state' := assign_word state player word used round_idx now in
              let db' := save_game_state game_id state' db in
              match py_index TIMERS round_idx with
              | None => (db', RCrash)
              | Some timer =>
                (db', RWord word round_idx timer player (lives state')
                            (players state') alive)
              end
            end
          end
      end
  end.

Definition submit_word `{PyText} (game_id : string) (player_arg : option string)
    (typed : string) (elapsed : pyfloat) (round : option Z) (now : string)
    (db : DB) : DB * response :=
  match load_game_state game_id db with
  | None => (db, RError "Game not found." 404)
  | Some state =>
    let round_idx := default (current_round state) round in
    match player_arg with
    | None => (db, RError "Player not in game." 400)
    | Some player =>
      if negb (bool_decide (player ∈ players state))
      then (db, RError "Player not in game." 400)
      else if get0 (lives state) player <=? 0
      then (db, RError "Player eliminated." 400)
      else
        match last_assigned_word state !! player with
        | None =>
            (db, RError "No assigned word for player (request /word first)." 400)
        | Some expected =>
          match timer_for round_idx with
          | None => (db, RCrash)
          | Some timer =>
            let success := submission_success typed expected elapsed timer in
            let state' := resolve_submission state player success now in
            (save_game_state game_id state' db,
             RSubmit success expected typed timer elapsed (lives state')
                     (current_round state') player)
          end
        end
    end
  end.

Definition status (game_id : string) (db : DB) : DB * response :=
  match load_game_state game_id db with
  | None => (db, RError "Game not found." 404)
  | Some state =>
      (db, RStatus (players state) (lives state) (current_round state))
  end.

Definition history (game_id : string) (db : DB) : DB * response :=
  match load_game_state game_id db with
  | None => (db, RError "Game not found." 404)
  | Some state => (db, RHistory (history state))
  end.

End Route.

(** From here on [lower] is any function with the two properties of the
    class. *)
Section Game.
Context {Py : PyText}.

(** ** Requests and runs *)

Inductive request : Type :=
  | CreateGame (game_id now : string) (raw_players : list string)
  | GetWord (game_id : string) (player : option string) (rnd : nat) (now : string)
  | SubmitWord (game_id : string) (player : option string) (typed : string)
               (elapsed : pyfloat) (round : option Z) (now : string)
  | Status (game_id : string)
  | History (game_id : string).

Definition handle (req : request) (db : DB) : DB * response :=
  match req with
  | CreateGame g now raw => Route.create_game g now raw db
  | GetWord g p rnd now => Route.get_word g p rnd now db
  | SubmitWord g p typed el r now => Route.submit_word g p typed el r now db
  | Status g => Route.status g db
  | History g => Route.history g db
  end.

(** Serve the requests in order, collecting the responses. *)
Fixpoint run (reqs : list request) (db : DB) : DB * list response :=
  match reqs with
  | [] => (db, [])
  | req :: rest =>
      let '(db1, r) := handle req db in
      let '(db2, rs) := run rest db1 in
      (db2, r :: rs)
  end.

Definition request_game (req : request) : string :=
  match req with
  | CreateGame g _ _ => g
  | GetWord g _ _ _ => g
  | SubmitWord g _ _ _ _ _ => g
  | Status g => g
  | History g => g
  end.

Definition is_create (req : request) : bool :=
  match req with
  | CreateGame _ _ _ => true
  | _ => false
  end.

(** The response hands a word to [p] or accepts a submission of [p]. *)
Definition serves_player (p : string) (resp : response) : bool :=
  match resp with
  | RWord _ _ _ q _ _ _ => String.eqb q p
  | RSubmit _ _ _ _ _ _ _ q => String.eqb q p
  | _ => false
  end.

(** The tables the server can ever hold: it starts with no row. *)
Definition reachable (db : DB) : Prop :=
  ∃ reqs : list request, (run reqs ∅).1 = db.

(** The error responses of the word route and of the submit route. *)
Definition word_errors : list (string * Z) :=
  [("Game not found.", 404); ("No more rounds.", 400);
   ("Player not valid or eliminated.", 400); ("No alive players.", 400)].

Definition submit_errors : list (string * Z) :=
  [("Game not found.", 404); ("Player not in game.", 400);
   ("Player eliminated.", 400);
   ("No assigned word for player (request /word first).", 400)].

(** ** Well-formed sessions *)

(** [w] is a word of one of the pools. *)
Definition pool_word (w : string) : Prop :=
  ∃ pool : list string, pool ∈ WORD_POOLS ∧ w ∈ pool.

(** What every stored session satisfies: the turn order is the roster, names
    are trimmed and non-empty, lives and the round are non-negative, and
    every owed word comes from a pool. *)
Definition wf_state (s : State) : Prop :=
  turn_order s = players s
  ∧ Forall (fun p => p ≠ "" ∧ strip p = p) (players s)
  ∧ map_Forall (fun _ v => 0 ≤ v) (lives s)
  ∧ 0 ≤ current_round s
  ∧ map_Forall (fun _ w => pool_word w) (last_assigned_word s).

Definition wf_db (db : DB) : Prop :=
  ∀ (g : string) (s : State), load_game_state g db = Some s → wf_state s.

(** The session [g] holds [p] with no life left and with the owed-word entry
    [owed]. *)
Definition eliminated_in (g p : string) (owed : option string) (db : DB) : Prop :=
  ∃ s : State,
    load_game_state g db = Some s ∧ get0 (lives s) p = 0
    ∧ last_assigned_word s !! p = owed.

(** [p] has a life left; [p] holds a word not yet answered. *)
Definition alive (s : State) (p : string) : Prop := 0 < get0 (lives s) p.

Definition owes_word (s : State) (p : string) : Prop :=
  is_Some (last_assigned_word s !! p).

(** [p] is the first element of [l] that satisfies [P]. *)
Definition first_such (P : string → Prop) (l : list string) (p : string) : Prop :=
  ∃ pre post : list string,
    l = pre ++ p :: post ∧ P p ∧ ∀ x, x ∈ pre → ¬ P x.

(** The word request is served to [p]. *)
Definition served_to (s : State) (p : string) (out : DB * response) : Prop :=
  ∃ (w : string) (t : Z) (db' : DB),
    out = (db', RWord w (current_round s) t p (lives s) (players s)
                      (alive_players (players s) (lives s))).

(** [elapsed <= timer] as a proposition: a NaN or an infinite elapsed time
    is never within the timer, minus infinity always is. *)
Definition float_le (e : pyfloat) (t : Z) : Prop :=
  match e with
  | FFinite q => (q <= inject_Z t)%Q
  | FNegInf => True
  | FPosInf => False
  | FNaN => False
  end.

(** ** Two candidate properties *)

(** The reading "the round advances exactly when the played set equals the
    alive set" for one submission. *)
Definition advances_iff_played_equals_alive (db : DB) (g q typed : string)
    (el : pyfloat) (rd : option Z) (now : string) : Prop :=
  ∀ s s' : State,
    load_game_state g db = Some s →
    load_game_state g (Route.submit_word g (Some q) typed el rd now db).1 = Some s' →
    (current_round s' = current_round s + 1
     ↔ ({[q]} ∪ played_this_round s : gset string)
       = list_to_set (alive_players (players s') (lives s'))).

(** The reading "the stored players are unique" for one creation request. *)
Definition created_players_unique (g now : string) (raw : list string)
    (db : DB) : Prop :=
  ∀ s : State,
    load_game_state g (Route.create_game g now raw db).1 = Some s →
    NoDup (players s).

(** ** Sample runs *)

Definition lone_player_run : list request :=
  [CreateGame "g" "t0" ["A"];
   GetWord "g" None 0 "t1";
   SubmitWord "g" (Some "A") "x" (FFinite 0) None "t2";
   GetWord "g" None 0 "t3";
   SubmitWord "g" (Some "A") "x" (FFinite 0) None "t4";
   GetWord "g" None 0 "t5"].

Definition lone_player_db : DB := (run lone_player_run ∅).1.

(** The session of [lone_player_db] before and after the third failed
    submission of its only player. *)
Definition lone_before : State :=
  {| players := ["A"];
     lives := {[ "A" := 1 ]};
     current_round := 2;
     turn_order := ["A"];
     played_this_round := ∅;
     last_assigned_word := {[ "A" := "planet" ]};
     used_words_in_round := {[ "planet" ]};
     history := [EvAssign 0 "A" "cat" "t1"; EvAdvance 1 "t2";
                 EvAssign 1 "A" "frog" "t3"; EvAdvance 2 "t4";
                 EvAssign 2 "A" "planet" "t5"];
     created_at := "t0" |}.

Definition lone_after : State :=
  {| players := ["A"];
     lives := {[ "A" := 0 ]};
     current_round := 3;
     turn_order := ["A"];
     played_this_round := ∅;
     last_assigned_word := ∅;
     used_words_in_round := ∅;
     history := [EvAssign 0 "A" "cat" "t1"; EvAdvance 1 "t2";
                 EvAssign 1 "A" "frog" "t3"; EvAdvance 2 "t4";
                 EvAssign 2 "A" "planet" "t5"; EvAdvance 3 "t6"];
     created_at := "t0" |}.

Definition lone_over_db : DB :=
  (Route.submit_word "g" (Some "A") "x" (FFinite 0) None "t6" lone_player_db).1.

(** Two players; [A] fails three times in round 0 and is eliminated, then
    [B] is handed a word. *)
Definition pair_run : list request :=
  [CreateGame "g" "t0" ["A"; "B"];
   GetWord "g" None 0 "t1";
   SubmitWord "g" (Some "A") "x" (FFinite 0) None "t2";
   GetWord "g" None 0 "t3";
   SubmitWord "g" (Some "A") "x" (FFinite 0) None "t4";
   GetWord "g" None 0 "t5";
   SubmitWord "g" (Some "A") "x" (FFinite 0) None "t6";
   GetWord "g" None 0 "t7"].

Definition pair_db : DB := (run pair_run ∅).1.

(** The session of [pair_db] before and after the correct submission of
    [B]. *)
Definition pair_before : State :=
  {| players := ["A"; "B"];
     lives := {[ "A" := 0; "B" := 3 ]};
     current_round := 0;
     turn_order := ["A"; "B"];
     played_this_round := {[ "A" ]};
     last_assigned_word := {[ "B" := "cat" ]};
     used_words_in_round := {[ "cat" ]};
     history := [EvAssign 0 "A" "cat" "t1"; EvAssign 0 "A" "dog" "t3";
                 EvAssign 0 "A" "bat" "t5"; EvAssign 0 "B" "cat" "t7"];
     created_at := "t0" |}.

Definition pair_after : State :=
  {| players := ["A"; "B"];
     lives := {[ "A" := 0; "B" := 3 ]};
     current_round := 1;
     turn_order := ["A"; "B"];
     played_this_round := ∅;
     last_assigned_word := ∅;
     used_words_in_round := ∅;
     history := [EvAssign 0 "A" "cat" "t1"; EvAssign 0 "A" "dog" "t3";
                 EvAssign 0 "A" "bat" "t5"; EvAssign 0 "B" "cat" "t7";
                 EvAdvance 1 "t8"];
     created_at := "t0" |}.

(** A fresh two-player session, and a one-player session played through all
    five rounds. *)
Definition fresh_db : DB := (run [CreateGame "g" "t0" ["A"; "B"]] ∅).1.

Definition fresh_state : State :=
  {| players := ["A"; "B"];
     lives := initial_lives ["A"; "B"];
     current_round := 0;
     turn_order := ["A"; "B"];
     played_this_round := ∅;
     last_assigned_word := ∅;
     used_words_in_round := ∅;
     history := [];
     created_at := "t0" |}.

Definition finished_run : list request :=
  [CreateGame "g" "t0" ["A"];
   GetWord "g" None 0 "t1";
   SubmitWord "g" (Some "A") "cat" (FFinite 1) None "t2";
   GetWord "g" None 0 "t3";
   SubmitWord "g" (Some "A") "frog" (FFinite 1) None "t4";
   GetWord "g" None 0 "t5";
   SubmitWord "g" (Some "A") "planet" (FFinite 1) None "t6";
   GetWord "g" None 0 "t7";
   SubmitWord "g" (Some "A") "computer" (FFinite 1) None "t8";
   GetWord "g" None 0 "t9";
   SubmitWord "g" (Some "A") "adventure" (FFinite 1) None "t10"].

Definition finished_db : DB := (run finished_run ∅).1.

Definition finished_state : State :=
  {| players := ["A"];
     lives := {[ "A" := 3 ]};
     current_round := 5;
     turn_order := ["A"];
     played_this_round := ∅;
     last_assigned_word := ∅;
     used_words_in_round := ∅;
     history := [EvAssign 0 "A" "cat" "t1"; EvAdvance 1 "t2";
                 EvAssign 1 "A" "frog" "t3"; EvAdvance 2 "t4";
                 EvAssign 2 "A" "planet" "t5"; EvAdvance 3 "t6";
                 EvAssign 3 "A" "computer" "t7"; EvAdvance 4 "t8";
                 EvAssign 4 "A" "adventure" "t9"; EvAdvance 5 "t10"];
     created_at := "t0" |}.
(** * The life of a session *)

(** The state [create_game] stores for the cleaned roster [pl]. *)
Definition initial_state (pl : list string) (now : string) : State :=
  {| players := pl;
     lives := initial_lives pl;
     current_round := 0;
     turn_order := pl;
     played_this_round := ∅;
     last_assigned_word := ∅;
     used_words_in_round := ∅;
     history := [];
     created_at := now |}.

(** One change of a stored session: [get_word] serves a word, or
    [submit_word] evaluates a submission. *)
Inductive session_step (s : State) : State → Prop :=
  | step_word (arg : option string) (rnd : nat) (now : string) (q w : string)
      (pool : list string) :
      current_round s < 5 →
      select_player s arg = inr (Some q) → q ≠ "" →
      py_index WORD_POOLS (current_round s) = Some pool →
      choice rnd (if is_nil (unused_words (used_words_in_round s) pool)
                  then pool
                  else unused_words (used_words_in_round s) pool) = Some w →
      session_step s
        (assign_word s q w
           (if is_nil (unused_words (used_words_in_round s) pool)
            then ∅ else used_words_in_round s)
           (current_round s) now)
  | step_submit (q expected : string) (succ : bool) (now : string) :
      q ∈ players s → 0 < get0 (lives s) q →
      last_assigned_word s !! q = Some expected →
      session_step s (resolve_submission s q succ now).

(** A session that [create_game] stored and the routes changed since. *)
Definition session_origin (s : State) : Prop :=
  ∃ (raw : list string) (now : string),
    clean_players raw ≠ []
    ∧ rtc session_step (initial_state (clean_players raw) now) s.

(** The request does not create session [g] anew. *)
Definition keeps_session (g : string) (req : request) : Prop :=
  ¬ (is_create req = true ∧ request_game req = g).

Definition is_advance (e : event) : bool :=
  match e with
  | EvAdvance _ _ => true
  | EvAssign _ _ _ _ => false
  end.

(** The number of round-advance entries of a history. *)
Definition advance_count (h : list event) : Z :=
  Z.of_nat (length (List.filter is_advance h)).

(** What holds of every session the routes can produce. *)
Definition session_inv (s : State) : Prop :=
  turn_order s = players s
  ∧ dom (lives s) = list_to_set (players s)
  ∧ map_Forall (fun _ v => 0 ≤ v ≤ 3) (lives s)
  ∧ (∀ p, is_Some (last_assigned_word s !! p) →
          p ∈ players s ∧ 0 < get0 (lives s) p)
  ∧ played_this_round s ⊆ list_to_set (players s)
  ∧ (∀ w, w ∈ used_words_in_round s →
          ∃ pool, py_index WORD_POOLS (current_round s) = Some pool ∧ w ∈ pool)
  ∧ current_round s = advance_count (history s).

(** The body of a submission as [submit_word] reads it: [typed] defaults to
    the empty string and [elapsed] to 9999. *)
Definition submit_word_body (game_id : string) (player typed : option string)
    (elapsed : option pyfloat) (round : option Z) (now : string) (db : DB)
  : DB * response :=
  Route.submit_word game_id player (default "" typed)
    (default (FFinite 9999) elapsed) round now db.

(** No request can change the session any more: the rounds are used up and
    nobody owes a word, or nobody is alive. *)
Definition rounds_finished (s : State) : Prop :=
  Z.of_nat (length WORD_POOLS) ≤ current_round s ∧ last_assigned_word s = ∅.

Definition all_eliminated (s : State) : Prop :=
  ∀ p, get0 (lives s) p ≤ 0.

(** The response is an error or the uncaught exception. *)
Definition refused (r : response) : Prop :=
  match r with
  | RError _ _ => True
  | _ => False
  end.

(** [s'] is a later state of the session [s]: same roster, the round and the
    history only grew, no life count grew. *)
Definition session_le (s s' : State) : Prop :=
  players s' = players s
  ∧ turn_order s' = turn_order s
  ∧ created_at s' = created_at s
  ∧ current_round s ≤ current_round s'
  ∧ history s `prefix_of` history s'
  ∧ ∀ p, get0 (lives s') p ≤ get0 (lives s) p.

(** A word request or a submission for game [g] is answered with an error. *)
Definition answer_refused (g : string) (req : request) (resp : response) : Prop :=
  request_game req = g →
  match req with
  | GetWord _ _ _ _ => refused resp
  | SubmitWord _ _ _ _ _ _ => refused resp
  | _ => True
  end.

(** A run on [pair_db] in which [B] answers and is handed the next word. *)
Definition pair_next_run : list request :=
  [SubmitWord "g" (Some "B") "cat" (FFinite 0) None "t8";
   History "g";
   GetWord "g" (Some "B") 1 "t9"].

(** The success flag of a response, when it carries one. *)
Definition success_of (r : response) : option bool :=
  match r with
  | RSubmit success _ _ _ _ _ _ _ => Some success
  | _ => None
  end.

(** Three whitespace characters outside ASCII, in UTF-8: U+00A0, U+2003 and
    U+3000. *)
Definition NBSP : string := String "194"%char (String "160"%char EmptyString).

Definition EM_SPACE : string :=
  String "226"%char (String "128"%char (String "131"%char EmptyString)).

Definition IDEOGRAPHIC_SPACE : string :=
  String "227"%char (String "128"%char (String "128"%char EmptyString)).

(** * Properties *)

(** ** Text *)

Lemma lstrip_step (s : string) :
  lstrip s = match ws_tail s with
             | Some r => lstrip r
             | None => s
             end.
Proof.
  destruct s as [|c1 [|c2 [|c3 r3]]]; cbn [lstrip ws_tail]; try done.
  - by destruct (space1 c1).
  - destruct (space1 c1); [done|]. by destruct (space2 c1 c2).
  - destruct (space1 c1); [done|]. destruct (space2 c1 c2); [done|].
    by destruct (space3 c1 c2 c3).
Qed.

Lemma ws_tail_shorter (s r : string) :
  ws_tail s = Some r → (String.length r < String.length s)%nat.
Proof.
  destruct s as [|c1 [|c2 [|c3 r3]]]; cbn [ws_tail]; try done.
  - destruct (space1 c1); [|done]. intros [= <-]. simpl. lia.
  - destruct (space1 c1); [intros [= <-]; simpl; lia|].
    destruct (space2 c1 c2); [|done]. intros [= <-]. simpl. lia.
  - destruct (space1 c1); [intros [= <-]; simpl; lia|].
    destruct (space2 c1 c2); [intros [= <-]; simpl; lia|].
    destruct (space3 c1 c2 c3); [|done]. intros [= <-]. simpl. lia.
Qed.

Lemma ws_tail_app (a r b : string) :
  ws_tail a = Some r → ws_tail (String.append a b) = Some (String.append r b).
Proof.
  destruct a as [|c1 [|c2 [|c3 r3]]]; unfold ws_tail; simpl; try done.
  - destruct (space1 c1); [|done]. by intros [= <-].
  - destruct (space1 c1); [by intros [= <-]|].
    destruct (space2 c1 c2); [|done]. by intros [= <-].
  - destruct (space1 c1); [by intros [= <-]|].
    destruct (space2 c1 c2); [by intros [= <-]|].
    destruct (space3 c1 c2 c3); [|done]. by intros [= <-].
Qed.

(** Induction on texts by their length. *)
Lemma string_length_ind (P : string → Prop) :
  (∀ s, (∀ r, (String.length r < String.length s)%nat → P r) → P s) →
  ∀ s, P s.
Proof.
  intros Hstep s.
  assert (G : ∀ n s, (String.length s < n)%nat → P s).
  { induction n as [|n IH]; intros s' Hlen; [lia|].
    apply Hstep. intros r Hr. apply IH. lia. }
  apply (G (S (String.length s))). lia.
Qed.

Lemma ws_tail_lstrip (s : string) : ws_tail (lstrip s) = None.
Proof.
  induction s as [s IH] using string_length_ind.
  rewrite lstrip_step. destruct (ws_tail s) as [r|] eqn:Hs; [|done].
  apply IH. by apply ws_tail_shorter.
Qed.

Lemma lstrip_fixed (s : string) : ws_tail s = None → lstrip s = s.
Proof. intros Hs. by rewrite lstrip_step, Hs. Qed.

Lemma lstrip_app (a b : string) :
  lstrip a = "" → lstrip (String.append a b) = lstrip b.
Proof.
  induction a as [a IH] using string_length_ind. intros Ha.
  rewrite lstrip_step in Ha. destruct (ws_tail a) as [r|] eqn:Hr.
  - rewrite (lstrip_step (String.append a b)), (ws_tail_app a r b Hr).
    apply IH; [by apply ws_tail_shorter | done].
  - by subst a.
Qed.

Lemma rstrip_split (s : string) :
  ∃ w, s = String.append (rstrip s) w ∧ lstrip w = "".
Proof.
  induction s as [|c r IH]; [by exists ""|].
  cbn [rstrip]. destruct (String.eqb_spec (lstrip (String c r)) "") as [He|Hne].
  - by exists (String c r).
  - destruct IH as (w & Hw & Hl). exists w. split; [|done].
    change (String c r = String c (String.append (rstrip r) w)).
    by f_equal.
Qed.

Lemma ws_tail_rstrip (t : string) : ws_tail t = None → ws_tail (rstrip t) = None.
Proof.
  intros Ht. destruct (ws_tail (rstrip t)) as [r|] eqn:Hr; [|done].
  destruct (rstrip_split t) as (w & Hw & _).
  apply (ws_tail_app _ _ w) in Hr. rewrite <- Hw in Hr. congruence.
Qed.

Lemma rstrip_idem (s : string) : rstrip (rstrip s) = rstrip s.
Proof.
  induction s as [|c r IH]; [done|].
  cbn [rstrip]. destruct (String.eqb_spec (lstrip (String c r)) "") as [He|Hne];
    [done|].
  cbn [rstrip].
  destruct (String.eqb_spec (lstrip (String c (rstrip r))) "") as [He'|_];
    [|by rewrite IH].
  exfalso. apply Hne.
  destruct (rstrip_split r) as (w & Hw & Hl).
  rewrite Hw. change (String c (String.append (rstrip r) w))
    with (String.append (String c (rstrip r)) w).
  by rewrite lstrip_app.
Qed.

Lemma strip_idem (s : string) : strip (strip s) = strip s.
Proof.
  unfold strip.
  rewrite (lstrip_fixed (rstrip (lstrip s)))
    by apply ws_tail_rstrip, ws_tail_lstrip.
  apply rstrip_idem.
Qed.

Lemma truthy_true (s : string) : truthy s = true ↔ s ≠ "".
Proof.
  unfold truthy. destruct (String.eqb_spec s ""); simpl; split; congruence.
Qed.

Lemma truthy_false (s : string) : truthy s = false ↔ s = "".
Proof.
  unfold truthy. destruct (String.eqb_spec s ""); simpl; split; congruence.
Qed.

Lemma strip_empty : strip "" = "".
Proof. reflexivity. Qed.

(** ** Persistence *)

Lemma state_of_row_of_state (s : State) : state_of_row (row_of_state s) = s.
Proof.
  destruct s; unfold state_of_row, row_of_state; simpl.
  by rewrite !list_to_set_elements_L.
Qed.

Lemma load_save_eq (g : string) (s : State) (db : DB) :
  load_game_state g (save_game_state g s db) = Some s.
Proof.
  unfold load_game_state, save_game_state.
  rewrite lookup_insert_eq. simpl. by rewrite state_of_row_of_state.
Qed.

Lemma load_save_ne (g g' : string) (s : State) (db : DB) :
  g ≠ g' → load_game_state g' (save_game_state g s db) = load_game_state g' db.
Proof.
  intros Hne. unfold load_game_state, save_game_state.
  by rewrite lookup_insert_ne.
Qed.

Lemma load_empty (g : string) : load_game_state g (∅ : DB) = None.
Proof. unfold load_game_state. by rewrite lookup_empty. Qed.

(** ** Sequences and tables *)

Lemma py_index_nonneg {A : Type} (l : list A) (i : Z) :
  0 ≤ i → py_index l i = l !! Z.to_nat i.
Proof.
  intros Hi. unfold py_index.
  destruct (Z.ltb_spec i (Z.of_nat (length l))) as [Hlt|Hge].
  - replace (0 <=? i) with true by (symmetry; apply Z.leb_le; lia). done.
  - replace (0 <=? i) with true by (symmetry; apply Z.leb_le; lia). simpl.
    replace (i <? 0) with false by (symmetry; apply Z.ltb_ge; lia).
    rewrite andb_false_r. symmetry. apply lookup_ge_None. lia.
Qed.

Lemma py_index_Some_range {A : Type} (l : list A) (i : Z) (x : A) :
  py_index l i = Some x →
  - Z.of_nat (length l) ≤ i < Z.of_nat (length l).
Proof.
  unfold py_index.
  destruct (Z.leb_spec 0 i), (Z.ltb_spec i (Z.of_nat (length l))); simpl;
    try (intros _; lia).
  - destruct (Z.leb_spec (- Z.of_nat (length l)) i), (Z.ltb_spec i 0); simpl;
      intros; try discriminate; lia.
  - destruct (Z.leb_spec (- Z.of_nat (length l)) i), (Z.ltb_spec i 0); simpl;
      intros; try discriminate; lia.
Qed.

Lemma py_index_elem {A : Type} (l : list A) (i : Z) (x : A) :
  py_index l i = Some x → x ∈ l.
Proof.
  unfold py_index. repeat case_match; try discriminate;
    intros Hx; eapply list_elem_of_lookup_2; exact Hx.
Qed.

Lemma py_index_in_range {A : Type} (l : list A) (i : Z) :
  - Z.of_nat (length l) ≤ i < Z.of_nat (length l) → is_Some (py_index l i).
Proof.
  intros Hi. unfold py_index.
  destruct (Z.leb_spec 0 i); simpl.
  - replace (i <? Z.of_nat (length l)) with true
      by (symmetry; apply Z.ltb_lt; lia).
    apply lookup_lt_is_Some. lia.
  - replace (- Z.of_nat (length l) <=? i) with true
      by (symmetry; apply Z.leb_le; lia).
    replace (i <? 0) with true by (symmetry; apply Z.ltb_lt; lia). simpl.
    apply lookup_lt_is_Some. lia.
Qed.

Lemma choice_nonempty {A : Type} (rnd : nat) (l : list A) :
  l ≠ [] → ∃ x, choice rnd l = Some x ∧ x ∈ l.
Proof.
  intros Hl. unfold choice.
  assert (Hlen : (rnd mod length l < length l)%nat).
  { apply Nat.mod_upper_bound. destruct l; [done | simpl; lia]. }
  destruct (lookup_lt_is_Some_2 l _ Hlen) as [x Hx].
  exists x. split; [done|]. by eapply list_elem_of_lookup_2.
Qed.

Lemma choice_elem {A : Type} (rnd : nat) (l : list A) (x : A) :
  choice rnd l = Some x → x ∈ l.
Proof. unfold choice. intros H. by eapply list_elem_of_lookup_2. Qed.

Lemma is_nil_true {A : Type} (l : list A) : is_nil l = true ↔ l = [].
Proof. destruct l; simpl; split; congruence. Qed.

Lemma is_nil_false {A : Type} (l : list A) : is_nil l = false ↔ l ≠ [].
Proof. destruct l; simpl; split; congruence. Qed.

Lemma length_WORD_POOLS : Z.of_nat (length WORD_POOLS) = 5.
Proof. reflexivity. Qed.

Lemma length_TIMERS : Z.of_nat (length TIMERS) = 5.
Proof. reflexivity. Qed.

Lemma pools_nonempty (pool : list string) : pool ∈ WORD_POOLS → pool ≠ [].
Proof.
  unfold WORD_POOLS. rewrite !elem_of_cons, elem_of_nil.
  intros H. repeat destruct H as [H|H]; try done; by subst.
Qed.

Lemma timer_for_total (r : Z) : is_Some (timer_for r).
Proof.
  unfold timer_for. destruct (_ && _) eqn:H.
  - apply andb_true_iff in H as [H1 H2].
    apply Z.leb_le in H1. apply Z.ltb_lt in H2.
    apply py_index_in_range. lia.
  - by eexists.
Qed.

(** ** The word route *)

Lemma select_player_error (s : State) (arg : option string) (r : response) :
  select_player s arg = inl r → r = RError "Player not valid or eliminated." 400.
Proof.
  unfold select_player. intros H. repeat case_match; congruence.
Qed.

Lemma get_word_error (g : string) (arg : option string) (rnd : nat)
    (now : string) (db db' : DB) (e : string) (c : Z) :
  Route.get_word g arg rnd now db = (db', RError e c) →
  db' = db ∧ (e, c) ∈ word_errors.
Proof.
  unfold Route.get_word, word_errors. intros H.
  repeat case_match; simplify_eq; try (split; [done | set_solver]).
  match goal with Hs : select_player _ _ = inl _ |- _ =>
    apply select_player_error in Hs; simplify_eq end.
  split; [done | set_solver].
Qed.

Lemma get_word_RWord (g : string) (arg : option string) (rnd : nat)
    (now : string) (db db' : DB) (w : string) (r t : Z) (q : string)
    (lv : gmap string Z) (pl al : list string) :
  Route.get_word g arg rnd now db = (db', RWord w r t q lv pl al) →
  ∃ (s : State) (pool : list string),
    load_game_state g db = Some s ∧
    r = current_round s ∧ current_round s < 5 ∧
    select_player s arg = inr (Some q) ∧ q ≠ "" ∧
    py_index WORD_POOLS r = Some pool ∧
    let unused := unused_words (used_words_in_round s) pool in
    choice rnd (if is_nil unused then pool else unused) = Some w ∧
    db' = save_game_state g
            (assign_word s q w
               (if is_nil unused then ∅ else used_words_in_round s) r now) db ∧
    py_index TIMERS r = Some t ∧
    lv = lives s ∧ pl = players s ∧
    al = alive_players (players s) (lives s).
Proof.
  unfold Route.get_word. intros H.
  destruct (load_game_state g db) as [s|] eqn:Hload; [|done].
  destruct (Z.leb_spec (Z.of_nat (length WORD_POOLS)) (current_round s)) as [|Hr];
    [done|].
  destruct (select_player s arg) as [err|sel] eqn:Hsel.
  { apply select_player_error in Hsel. by simplify_eq. }
  destruct sel as [q'|]; simpl in H; [|done].
  destruct (truthy q') eqn:Hq; simpl in H; [|done].
  destruct (py_index WORD_POOLS (current_round s)) as [pool|] eqn:Hpool; [|done].
  destruct (choice rnd _) as [w'|] eqn:Hw; [|done].
  destruct (py_index TIMERS (current_round s)) as [t'|] eqn:Ht; [|done].
  inversion H; subst; clear H. exists s, pool.
  rewrite length_WORD_POOLS in Hr.
  apply truthy_true in Hq. cbv zeta. by repeat split.
Qed.

Lemma get_word_serves (g : string) (arg : option string) (rnd : nat)
    (now : string) (db : DB) (s : State) (q : string) :
  load_game_state g db = Some s →
  - 5 ≤ current_round s < 5 →
  select_player s arg = inr (Some q) → q ≠ "" →
  ∃ (w : string) (t : Z) (db' : DB),
    Route.get_word g arg rnd now db
    = (db', RWord w (current_round s) t q (lives s) (players s)
                  (alive_players (players s) (lives s))).
Proof.
  intros Hload Hr Hsel Hq. unfold Route.get_word. rewrite Hload.
  destruct (Z.leb_spec (Z.of_nat (length WORD_POOLS)) (current_round s)) as [Hge|_].
  { rewrite length_WORD_POOLS in Hge. lia. }
  rewrite Hsel. simpl. apply truthy_true in Hq. rewrite Hq. simpl.
  destruct (py_index_in_range WORD_POOLS (current_round s)) as [pool Hpool].
  { rewrite length_WORD_POOLS. lia. }
  rewrite Hpool.
  assert (Hne : pool ≠ []) by (eapply pools_nonempty, py_index_elem; eauto).
  set (draw := if is_nil (unused_words (used_words_in_round s) pool)
               then pool else unused_words (used_words_in_round s) pool).
  assert (Hdraw : draw ≠ []).
  { subst draw. destruct (is_nil _) eqn:E; [done|]. by apply is_nil_false. }
  destruct (choice_nonempty rnd draw Hdraw) as (w & Hw & _). rewrite Hw.
  destruct (py_index_in_range TIMERS (current_round s)) as [t Ht].
  { rewrite length_TIMERS. lia. }
  rewrite Ht. by eexists _, _, _.
Qed.

(** ** The submit route *)

Lemma submit_word_error (g : string) (parg : option string) (typed : string)
    (el : pyfloat) (rd : option Z) (now : string) (db db' : DB)
    (e : string) (c : Z) :
  Route.submit_word g parg typed el rd now db = (db', RError e c) →
  db' = db ∧ (e, c) ∈ submit_errors.
Proof.
  unfold Route.submit_word, submit_errors. intros H.
  repeat case_match; simplify_eq; split; (done || set_solver).
Qed.

Lemma submit_word_RSubmit (g : string) (parg : option string) (typed : string)
    (el : pyfloat) (rd : option Z) (now : string) (db db' : DB)
    (succ : bool) (expected typed' : string) (timer : Z) (el' : pyfloat)
    (lv : gmap string Z) (cr : Z) (q : string) :
  Route.submit_word g parg typed el rd now db
  = (db', RSubmit succ expected typed' timer el' lv cr q) →
  ∃ s : State,
    load_game_state g db = Some s ∧ parg = Some q ∧
    q ∈ players s ∧ 0 < get0 (lives s) q ∧
    last_assigned_word s !! q = Some expected ∧
    timer_for (default (current_round s) rd) = Some timer ∧
    succ = submission_success typed expected el timer ∧
    typed' = typed ∧ el' = el ∧
    db' = save_game_state g (resolve_submission s q succ now) db ∧
    lv = lives (resolve_submission s q succ now) ∧
    cr = current_round (resolve_submission s q succ now).
Proof.
  unfold Route.submit_word. intros H.
  destruct (load_game_state g db) as [s|] eqn:Hload; [|done].
  destruct parg as [q'|]; [|done].
  destruct (bool_decide (q' ∈ players s)) eqn:Hin; simpl in H; [|done].
  apply bool_decide_eq_true in Hin.
  destruct (Z.leb_spec (get0 (lives s) q') 0) as [|Hl]; [done|].
  destruct (last_assigned_word s !! q') as [ex|] eqn:Hex; [|done].
  destruct (timer_for _) as [t|] eqn:Ht; [|done].
  inversion H; subst; clear H. exists s. by repeat split.
Qed.

Lemma submit_word_serves (g : string) (q typed : string) (el : pyfloat)
    (rd : option Z) (now : string) (db : DB) (s : State) (expected : string) :
  load_game_state g db = Some s →
  q ∈ players s → 0 < get0 (lives s) q →
  last_assigned_word s !! q = Some expected →
  ∃ timer : Z,
    timer_for (default (current_round s) rd) = Some timer ∧
    let succ := submission_success typed expected el timer in
    let s' := resolve_submission s q succ now in
    Route.submit_word g (Some q) typed el rd now db
    = (save_game_state g s' db,
       RSubmit succ expected typed timer el (lives s') (current_round s') q).
Proof.
  intros Hload Hin Hl Hex.
  destruct (timer_for_total (default (current_round s) rd)) as [t Ht].
  exists t. split; [done|]. cbv zeta.
  unfold Route.submit_word. rewrite Hload.
  rewrite (bool_decide_eq_true_2 _ Hin). simpl.
  destruct (Z.leb_spec (get0 (lives s) q) 0) as [|_]; [lia|].
  by rewrite Hex, Ht.
Qed.

(** ** State updates *)

Lemma forallb_played (played : gset string) (alive : list string) :
  forallb (fun p => bool_decide (p ∈ played)) alive = true
  ↔ ∀ p, p ∈ alive → p ∈ played.
Proof.
  rewrite forallb_forall. split.
  - intros H p Hp. apply list_elem_of_In in Hp.
    by apply (bool_decide_eq_true_1 (p ∈ played)), H.
  - intros H p Hp. apply list_elem_of_In in Hp.
    by apply (bool_decide_eq_true_2 (p ∈ played)), H.
Qed.

Lemma elem_of_alive_players (pl : list string) (lv : gmap string Z) (p : string) :
  p ∈ alive_players pl lv ↔ p ∈ pl ∧ 0 < get0 lv p.
Proof.
  unfold alive_players. rewrite !list_elem_of_In, filter_In.
  by rewrite Z.ltb_lt.
Qed.

Lemma resolve_lives (s : State) (q : string) (succ : bool) (now : string) :
  lives (resolve_submission s q succ now)
  = if succ then lives s
    else <[q := Z.max 0 (get0 (lives s) q - 1)]> (lives s).
Proof. unfold resolve_submission. by case_match. Qed.

Lemma resolve_players (s : State) (q : string) (succ : bool) (now : string) :
  players (resolve_submission s q succ now) = players s.
Proof. unfold resolve_submission. by case_match. Qed.

Lemma resolve_turn_order (s : State) (q : string) (succ : bool) (now : string) :
  turn_order (resolve_submission s q succ now) = turn_order s.
Proof. unfold resolve_submission. by case_match. Qed.

Lemma resolve_last_assigned (s : State) (q : string) (succ : bool) (now : string) :
  last_assigned_word (resolve_submission s q succ now)
  = delete q (last_assigned_word s).
Proof. unfold resolve_submission. by case_match. Qed.

Lemma resolve_round (s : State) (q : string) (succ : bool) (now : string) :
  current_round (resolve_submission s q succ now) = current_round s
  ∨ current_round (resolve_submission s q succ now) = current_round s + 1.
Proof. unfold resolve_submission. case_match; auto. Qed.

Lemma resolve_submission_cases (s : State) (q : string) (succ : bool)
    (now : string) :
  let s' := resolve_submission s q succ now in
  let played : gset string := {[q]} ∪ played_this_round s in
  ((∀ p, p ∈ players s → 0 < get0 (lives s') p → p ∈ played)
   ∧ current_round s' = current_round s + 1
   ∧ played_this_round s' = ∅
   ∧ used_words_in_round s' = ∅
   ∧ history s' = history s ++ [EvAdvance (current_round s + 1) now])
  ∨ (¬ (∀ p, p ∈ players s → 0 < get0 (lives s') p → p ∈ played)
     ∧ current_round s' = current_round s
     ∧ played_this_round s' = played
     ∧ used_words_in_round s' = used_words_in_round s
     ∧ history s' = history s).
Proof.
  cbv zeta. unfold resolve_submission.
  set (lv := if succ then lives s else _).
  destruct (forallb _ _) eqn:Hadv; simpl; [left | right].
  - repeat split. intros p Hp Hl.
    eapply forallb_played; [exact Hadv|]. by apply elem_of_alive_players.
  - repeat split. intros Hall.
    apply not_true_iff_false in Hadv. apply Hadv.
    apply forallb_played. intros p Hp.
    apply elem_of_alive_players in Hp as [? ?]. by apply Hall.
Qed.

Lemma get0_insert (d : gmap string Z) (k k' : string) (v : Z) :
  get0 (<[k := v]> d) k' = if decide (k = k') then v else get0 d k'.
Proof. unfold get0. rewrite lookup_insert. by case_decide. Qed.

(** ** Well-formed sessions *)

Lemma wf_assign_word (s : State) (q w : string) (used : gset string) (r : Z)
    (now : string) :
  pool_word w → wf_state s → wf_state (assign_word s q w used r now).
Proof.
  intros Hw (? & ? & ? & ? & Hlast). repeat split; try done. simpl.
  by apply map_Forall_insert_2.
Qed.

Lemma wf_resolve_submission (s : State) (q : string) (succ : bool) (now : string) :
  wf_state s → wf_state (resolve_submission s q succ now).
Proof.
  intros (Ht & Hp & Hl & Hr & Hlast). unfold wf_state.
  rewrite resolve_turn_order, resolve_players, resolve_lives,
    resolve_last_assigned.
  repeat split; try done.
  - destruct succ; [done|]. apply map_Forall_insert_2; [lia | done].
  - destruct (resolve_round s q succ now) as [-> | ->]; lia.
  - by apply map_Forall_delete.
Qed.

Lemma initial_lives_lookup (pl : list string) (p : string) :
  initial_lives pl !! p = if decide (p ∈ pl) then Some 3 else None.
Proof.
  unfold initial_lives.
  assert (G : ∀ (l : list string) (d : gmap string Z),
             foldl (fun d p => <[p := 3]> d) d l !! p
             = if decide (p ∈ l) then Some 3 else d !! p).
  { induction l as [|x l IH]; intros d; cbn [foldl].
    - rewrite decide_False by set_solver. done.
    - rewrite IH. destruct (decide (p ∈ l)) as [Hin|Hnin].
      + rewrite decide_True by set_solver. done.
      + destruct (decide (x = p)) as [->|Hne].
        * rewrite decide_True by set_solver. by rewrite lookup_insert_eq.
        * destruct (decide (p ∈ x :: l)) as [Hin|_].
          { apply elem_of_cons in Hin as [?|?]; congruence. }
          by rewrite lookup_insert_ne. }
  rewrite G. by rewrite lookup_empty.
Qed.

Lemma clean_players_filter_map (raw : list string) :
  clean_players raw = List.filter truthy (List.map strip raw).
Proof.
  unfold clean_players. induction raw as [|x raw IH]; simpl; [done|].
  rewrite <- IH. destruct (truthy x) eqn:Hx; simpl.
  - by destruct (truthy (strip x)).
  - apply truthy_false in Hx. subst x. by rewrite strip_empty.
Qed.

Lemma clean_players_trimmed (raw : list string) :
  Forall (fun p => p ≠ "" ∧ strip p = p) (clean_players raw).
Proof.
  rewrite clean_players_filter_map.
  induction raw as [|x raw IH]; simpl; [constructor|].
  destruct (truthy (strip x)) eqn:Hx; [|done].
  constructor; [|done]. split; [by apply truthy_true | apply strip_idem].
Qed.

Lemma elem_of_unused_words (used : gset string) (pool : list string) (w : string) :
  w ∈ unused_words used pool ↔ w ∈ pool ∧ w ∉ used.
Proof.
  unfold unused_words. rewrite !list_elem_of_In, filter_In.
  rewrite negb_true_iff, bool_decide_eq_false. done.
Qed.

Lemma unused_words_nil (used : gset string) (pool : list string) :
  unused_words used pool = [] ↔ ∀ w, w ∈ pool → w ∈ used.
Proof.
  split.
  - intros Hnil w Hw. destruct (decide (w ∈ used)) as [|Hn]; [done|].
    assert (Hin : w ∈ unused_words used pool)
      by (by apply elem_of_unused_words).
    rewrite Hnil in Hin. by apply elem_of_nil in Hin.
  - intros Hall. destruct (unused_words used pool) as [|w l] eqn:E; [done|].
    assert (Hin : w ∈ unused_words used pool) by (rewrite E; left).
    apply elem_of_unused_words in Hin as [Hp Hn]. by apply Hall in Hp.
Qed.

(** ** One step of each mutating route *)

Lemma select_player_alive (s : State) (arg : option string) (q : string) :
  select_player s arg = inr (Some q) → 0 < get0 (lives s) q.
Proof.
  assert (Hauto : auto_player s = Some q → 0 < get0 (lives s) q).
  { unfold auto_player. intros H.
    destruct (find _ (turn_order s)) as [x|] eqn:Hf.
    - injection H as ->. apply find_some in Hf as [_ Hf].
      apply andb_true_iff in Hf as [Hf _]. by apply Z.ltb_lt.
    - apply find_some in H as [_ H]. by apply Z.ltb_lt. }
  unfold select_player. intros H.
  destruct arg as [raw|]; [|injection H as H; auto].
  destruct (truthy raw); [|injection H as H; auto].
  destruct (negb _ || _) eqn:Hc; [done|].
  injection H as <-. apply orb_false_iff in Hc as [_ Hc].
  by apply Z.leb_gt in Hc.
Qed.

Lemma get_word_step (g : string) (arg : option string) (rnd : nat)
    (now : string) (db : DB) :
  ((Route.get_word g arg rnd now db).1 = db
   ∧ ∀ p, serves_player p (Route.get_word g arg rnd now db).2 = false)
  ∨ ∃ (s : State) (q w : string) (used : gset string) (t : Z),
      load_game_state g db = Some s
      ∧ select_player s arg = inr (Some q) ∧ q ≠ "" ∧ pool_word w
      ∧ Route.get_word g arg rnd now db
        = (save_game_state g (assign_word s q w used (current_round s) now) db,
           RWord w (current_round s) t q (lives s) (players s)
                 (alive_players (players s) (lives s))).
Proof.
  unfold Route.get_word.
  destruct (load_game_state g db) as [s|] eqn:Hload; [|by left].
  destruct (Z.leb_spec (Z.of_nat (length WORD_POOLS)) (current_round s)) as [|Hr];
    [by left|].
  destruct (select_player s arg) as [err|sel] eqn:Hsel.
  { apply select_player_error in Hsel as ->. by left. }
  destruct sel as [q|]; simpl; [|by left].
  destruct (truthy q) eqn:Hq; simpl; [|by left].
  destruct (py_index WORD_POOLS (current_round s)) as [pool|] eqn:Hpool;
    [|by left].
  destruct (choice rnd _) as [w|] eqn:Hw; [|by left].
  destruct (py_index_in_range TIMERS (current_round s)) as [t Ht].
  { apply py_index_Some_range in Hpool.
    rewrite length_WORD_POOLS in Hpool. by rewrite length_TIMERS. }
  rewrite Ht. right. apply truthy_true in Hq. eexists s, q, w, _, t.
  repeat split; try done.
  exists pool. split; [by eapply py_index_elem|].
  apply choice_elem in Hw. destruct (is_nil _); [done|].
  by apply elem_of_unused_words in Hw as [? _].
Qed.

Lemma submit_word_step (g : string) (parg : option string) (typed : string)
    (el : pyfloat) (rd : option Z) (now : string) (db : DB) :
  ((Route.submit_word g parg typed el rd now db).1 = db
   ∧ ∀ p, serves_player p (Route.submit_word g parg typed el rd now db).2 = false)
  ∨ ∃ (s : State) (q expected : string) (timer : Z) (succ : bool),
      load_game_state g db = Some s ∧ parg = Some q
      ∧ q ∈ players s ∧ 0 < get0 (lives s) q
      ∧ last_assigned_word s !! q = Some expected
      ∧ succ = submission_success typed expected el timer
      ∧ Route.submit_word g parg typed el rd now db
        = (save_game_state g (resolve_submission s q succ now) db,
           RSubmit succ expected typed timer el
                   (lives (resolve_submission s q succ now))
                   (current_round (resolve_submission s q succ now)) q).
Proof.
  unfold Route.submit_word.
  destruct (load_game_state g db) as [s|] eqn:Hload; [|by left].
  destruct parg as [q|]; [|by left].
  destruct (bool_decide (q ∈ players s)) eqn:Hin; simpl; [|by left].
  apply bool_decide_eq_true in Hin.
  destruct (Z.leb_spec (get0 (lives s) q) 0) as [|Hl]; [by left|].
  destruct (last_assigned_word s !! q) as [ex|] eqn:Hex; [|by left].
  destruct (timer_for _) as [t|] eqn:Ht; [|by left].
  right. by eexists s, q, ex, t, _.
Qed.

Lemma wf_db_save (g : string) (s : State) (db : DB) :
  wf_db db → wf_state s → wf_db (save_game_state g s db).
Proof.
  intros Hdb Hs g' s' Hload.
  destruct (decide (g = g')) as [->|Hne].
  - rewrite load_save_eq in Hload. by simplify_eq.
  - rewrite load_save_ne in Hload by done. by eapply Hdb.
Qed.

Lemma create_game_wf (g now : string) (raw : list string) (db : DB) :
  wf_db db → wf_db (Route.create_game g now raw db).1.
Proof.
  intros Hdb. unfold Route.create_game.
  destruct (is_nil (clean_players raw)); simpl; [done|].
  apply wf_db_save; [done|].
  repeat split; simpl; try done.
  - apply clean_players_trimmed.
  - intros p v. rewrite initial_lives_lookup. case_decide; [|done].
    intros [= <-]. lia.
Qed.

Lemma handle_wf (req : request) (db : DB) : wf_db db → wf_db (handle req db).1.
Proof.
  intros Hdb. destruct req; simpl.
  - by apply create_game_wf.
  - destruct (get_word_step game_id player rnd now db)
      as [[-> _] | (s & q & w & used & t & Hl & _ & _ & Hw & ->)]; [done|].
    simpl. apply wf_db_save; [done|]. apply wf_assign_word; [done|].
    by eapply Hdb.
  - destruct (submit_word_step game_id player typed elapsed round now db)
      as [[-> _] | (s & q & ex & t & succ & Hl & _ & _ & _ & _ & _ & ->)];
      [done|].
    simpl. apply wf_db_save; [done|]. apply wf_resolve_submission.
    by eapply Hdb.
  - unfold Route.status. by case_match.
  - unfold Route.history. by case_match.
Qed.

Lemma run_cons (req : request) (reqs : list request) (db : DB) :
  run (req :: reqs) db
  = ((run reqs (handle req db).1).1,
     (handle req db).2 :: (run reqs (handle req db).1).2).
Proof.
  simpl. destruct (handle req db) as [db1 r]. simpl.
  by destruct (run reqs db1).
Qed.

Lemma run_wf (reqs : list request) (db : DB) : wf_db db → wf_db (run reqs db).1.
Proof.
  revert db. induction reqs as [|req reqs IH]; intros db Hdb; [done|].
  rewrite run_cons. simpl. by apply IH, handle_wf.
Qed.

Lemma reachable_wf (db : DB) : reachable db → wf_db db.
Proof.
  intros [reqs <-]. apply run_wf. intros g s. by rewrite load_empty.
Qed.

(** ** Eliminated players *)

Lemma submit_word_eliminated (g q typed : string) (el : pyfloat)
    (rd : option Z) (now : string) (db : DB) (s : State) :
  load_game_state g db = Some s → get0 (lives s) q ≤ 0 →
  Route.submit_word g (Some q) typed el rd now db
  = (db, RError (if bool_decide (q ∈ players s)
                 then "Player eliminated." else "Player not in game.") 400).
Proof.
  intros Hload Hl. unfold Route.submit_word. rewrite Hload.
  destruct (bool_decide (q ∈ players s)); simpl; [|done].
  destruct (Z.leb_spec (get0 (lives s) q) 0); [done | lia].
Qed.

Lemma resolve_lives_other (s : State) (q p : string) (succ : bool) (now : string) :
  p ≠ q →
  get0 (lives (resolve_submission s q succ now)) p = get0 (lives s) p.
Proof.
  intros Hne. rewrite resolve_lives. destruct succ; [done|].
  rewrite get0_insert. by rewrite decide_False.
Qed.

Lemma resolve_lives_failed (s : State) (q : string) (now : string) :
  get0 (lives (resolve_submission s q false now)) q
  = Z.max 0 (get0 (lives s) q - 1).
Proof. rewrite resolve_lives, get0_insert. by rewrite decide_True. Qed.

(** ** Eliminated players, along a run *)

Lemma handle_eliminated (g p : string) (owed : option string) (req : request)
    (db : DB) :
  eliminated_in g p owed db →
  ¬ (is_create req = true ∧ request_game req = g) →
  eliminated_in g p owed (handle req db).1
  ∧ (request_game req = g → serves_player p (handle req db).2 = false).
Proof.
  intros (s & Hload & Hz & Hw) Hnc.
  destruct req as [g' now raw | g' arg rnd now | g' parg typed el rd now | g' | g'];
    simpl in *.
  - assert (Hne : g' ≠ g) by (intros ->; by apply Hnc).
    unfold Route.create_game. destruct (is_nil _); simpl.
    + split; [by exists s | done].
    + split; [|done]. exists s. by rewrite load_save_ne.
  - destruct (get_word_step g' arg rnd now db)
      as [[-> Hs] | (s1 & q & w & used & t & Hl1 & Hsel & _ & _ & ->)]; simpl.
    + split; [by exists s | done].
    + apply select_player_alive in Hsel.
      destruct (decide (g' = g)) as [->|Hne].
      * rewrite Hload in Hl1. injection Hl1 as <-.
        assert (q ≠ p) by (intros ->; lia).
        split.
        -- eexists. rewrite load_save_eq. split; [done|]. simpl.
           split; [done|]. by rewrite lookup_insert_ne.
        -- intros _. by apply String.eqb_neq.
      * split; [|done]. exists s. by rewrite load_save_ne.
  - destruct (submit_word_step g' parg typed el rd now db)
      as [[-> Hs] | (s1 & q & ex & t & succ & Hl1 & _ & _ & Hpos & _ & _ & ->)];
      simpl.
    + split; [by exists s | done].
    + destruct (decide (g' = g)) as [->|Hne].
      * rewrite Hload in Hl1. injection Hl1 as <-.
        assert (Hqp : q ≠ p) by (intros ->; lia).
        split.
        -- eexists. rewrite load_save_eq. split; [done|].
           rewrite resolve_lives_other by done.
           rewrite resolve_last_assigned. split; [done|].
           by rewrite lookup_delete_ne.
        -- intros _. by apply String.eqb_neq.
      * split; [|done]. exists s. by rewrite load_save_ne.
  - unfold Route.status. destruct (load_game_state g' db); simpl;
      (split; [by exists s | done]).
  - unfold Route.history. destruct (load_game_state g' db); simpl;
      (split; [by exists s | done]).
Qed.

Lemma run_eliminated (g p : string) (owed : option string)
    (reqs : list request) (db : DB) :
  eliminated_in g p owed db →
  Forall (fun req => ¬ (is_create req = true ∧ request_game req = g)) reqs →
  eliminated_in g p owed (run reqs db).1
  ∧ Forall2 (fun req resp => request_game req = g → serves_player p resp = false)
            reqs (run reqs db).2.
Proof.
  revert db. induction reqs as [|req reqs IH]; intros db Hel Hnc.
  - simpl. split; [done | constructor].
  - apply Forall_cons in Hnc as [Hreq Hnc]. rewrite run_cons. simpl.
    destruct (handle_eliminated g p owed req db Hel Hreq) as [Hel' Hserve].
    destruct (IH _ Hel' Hnc) as [Hfin Htrace].
    split; [done | by constructor].
Qed.

(** ** Timers and the comparison *)

Lemma float_le_int_spec (e : pyfloat) (t : Z) :
  float_le_int e t = true ↔ float_le e t.
Proof.
  destruct e as [q| | |]; simpl.
  - apply Qle_bool_iff.
  - split; [discriminate | intros []].
  - split; [intros _; exact I | reflexivity].
  - split; [discriminate | intros []].
Qed.

Lemma timer_for_in_range (r : Z) :
  0 ≤ r < Z.of_nat (length TIMERS) → timer_for r = TIMERS !! Z.to_nat r.
Proof.
  intros Hr. unfold timer_for.
  replace (0 <=? r) with true by (symmetry; apply Z.leb_le; lia).
  replace (r <? Z.of_nat (length TIMERS)) with true
    by (symmetry; apply Z.ltb_lt; lia).
  simpl. apply py_index_nonneg. lia.
Qed.

Lemma timer_for_out_of_range (r : Z) :
  ¬ (0 ≤ r < Z.of_nat (length TIMERS)) → timer_for r = last TIMERS.
Proof.
  intros Hr. unfold timer_for.
  destruct (Z.leb_spec 0 r), (Z.ltb_spec r (Z.of_nat (length TIMERS)));
    simpl; (done || lia).
Qed.


(** ** First match in a list *)

Lemma find_first {A : Type} (f : A → bool) (pre post : list A) (p : A) :
  f p = true → (∀ x, x ∈ pre → f x = false) →
  List.find f (pre ++ p :: post) = Some p.
Proof.
  intros Hp. induction pre as [|y pre IH]; intros Hpre; simpl.
  - by rewrite Hp.
  - rewrite (Hpre y) by left. apply IH. intros x Hx. apply Hpre. by right.
Qed.

Lemma find_nobody {A : Type} (f : A → bool) (l : list A) :
  (∀ x, x ∈ l → f x = false) → List.find f l = None.
Proof.
  induction l as [|y l IH]; intros Hl; simpl; [done|].
  rewrite (Hl y) by left. apply IH. intros x Hx. apply Hl. by right.
Qed.

Lemma find_split {A : Type} (f : A → bool) (l : list A) (p : A) :
  List.find f l = Some p →
  ∃ pre post : list A,
    l = pre ++ p :: post ∧ f p = true ∧ ∀ x, x ∈ pre → f x = false.
Proof.
  induction l as [|y l IH]; simpl; [done|].
  destruct (f y) eqn:Hy.
  - intros [= ->]. exists [], l. repeat split; [done|].
    intros x Hx. by apply elem_of_nil in Hx.
  - intros Hf. destruct (IH Hf) as (pre & post & -> & Hp & Hpre).
    exists (y :: pre), post. repeat split; [done|].
    intros x Hx. apply elem_of_cons in Hx as [->|Hx]; [done | by apply Hpre].
Qed.

Lemma find_none_all {A : Type} (f : A → bool) (l : list A) :
  List.find f l = None → ∀ x, x ∈ l → f x = false.
Proof.
  intros Hf x Hx. apply list_elem_of_In in Hx. by eapply find_none.
Qed.

Lemma alive_spec (s : State) (p : string) :
  (0 <? get0 (lives s) p) = true ↔ alive s p.
Proof. apply Z.ltb_lt. Qed.

Lemma alive_unassigned_spec (s : State) (p : string) :
  (0 <? get0 (lives s) p)
  && negb (bool_decide (is_Some (last_assigned_word s !! p))) = true
  ↔ alive s p ∧ ¬ owes_word s p.
Proof.
  rewrite andb_true_iff, negb_true_iff, bool_decide_eq_false, alive_spec.
  done.
Qed.

Lemma first_such_find (f : string → bool) (P : string → Prop)
    (l : list string) (p : string) :
  (∀ x, f x = true ↔ P x) →
  List.find f l = Some p ↔ first_such P l p.
Proof.
  intros Hf. split.
  - intros H. apply find_split in H as (pre & post & -> & Hp & Hpre).
    exists pre, post. repeat split; [by apply Hf|].
    intros x Hx HP. apply Hf in HP. rewrite (Hpre x Hx) in HP. done.
  - intros (pre & post & -> & Hp & Hpre). apply find_first; [by apply Hf|].
    intros x Hx. apply not_true_iff_false. intros Ht. apply Hf in Ht.
    by apply (Hpre x Hx).
Qed.

Lemma select_player_auto (s : State) (arg : option string) :
  arg = None ∨ arg = Some "" → select_player s arg = inr (auto_player s).
Proof. by intros [-> | ->]. Qed.

(** * Main results *)

(** ** Round advance *)

(** C1 (amended): a submission by a valid, alive player who holds a word is
    served, and the round advances exactly when every player alive after the
    submission is in the played set (the submitter included).  On an advance
    [current_round] grows by one, [played_this_round] and
    [used_words_in_round] are empty and a round-advance entry is appended to
    the history; otherwise the round, the used words and the history are
    unchanged and only the submitter is added to [played_this_round]. *)
Theorem C1_round_advance (g q typed : string) (el : pyfloat) (rd : option Z)
    (now : string) (db : DB) (s : State) (expected : string) :
  load_game_state g db = Some s →
  q ∈ players s → 0 < get0 (lives s) q →
  last_assigned_word s !! q = Some expected →
  ∃ s' : State,
    load_game_state g (Route.submit_word g (Some q) typed el rd now db).1 = Some s'
    ∧ (current_round s' = current_round s + 1
       ↔ ∀ p, p ∈ players s' → 0 < get0 (lives s') p →
              p ∈ ({[q]} ∪ played_this_round s : gset string))
    ∧ (current_round s' = current_round s + 1 →
       played_this_round s' = ∅ ∧ used_words_in_round s' = ∅
       ∧ history s' = history s ++ [EvAdvance (current_round s + 1) now])
    ∧ (current_round s' ≠ current_round s + 1 →
       current_round s' = current_round s
       ∧ played_this_round s' = {[q]} ∪ played_this_round s
       ∧ used_words_in_round s' = used_words_in_round s
       ∧ history s' = history s).
Proof.
  intros Hload Hin Hl Hex.
  destruct (submit_word_serves g q typed el rd now db s expected Hload Hin Hl Hex)
    as (timer & _ & Hrun).
  cbv zeta in Hrun. rewrite Hrun. simpl.
  set (succ := submission_success typed expected el timer).
  exists (resolve_submission s q succ now).
  split; [apply load_save_eq|].
  rewrite resolve_players.
  destruct (resolve_submission_cases s q succ now)
    as [(Hall & -> & -> & -> & ->) | (Hnot & -> & -> & -> & ->)].
  - repeat split; (done || lia).
  - split; [|split]; [| intros; lia | done].
    split; [intros; lia | done].
Qed.

(** ** Lives *)

(** C2: after any sequence of requests served from the empty table every
    stored life count is non-negative.  A submission answered with
    [success = false] was made with a positive life count and lowers it by
    exactly one (never below zero), other players' lives are untouched, and
    a submission by a player whose life count is zero changes nothing. *)
Theorem C2_lives_nonneg :
  (∀ (reqs : list request) (g : string) (s : State) (p : string),
     load_game_state g (run reqs ∅).1 = Some s →
     0 ≤ get0 (lives s) p ∧ ∀ v, lives s !! p = Some v → 0 ≤ v)
  ∧ (∀ (g q typed : string) (el : pyfloat) (rd : option Z) (now : string)
       (db db' : DB) (s : State) (resp : response),
       load_game_state g db = Some s →
       Route.submit_word g (Some q) typed el rd now db = (db', resp) →
       (∀ ex ty t e lv cr q',
          resp = RSubmit false ex ty t e lv cr q' →
          ∃ s', load_game_state g db' = Some s'
                ∧ 0 < get0 (lives s) q
                ∧ get0 (lives s') q = get0 (lives s) q - 1
                ∧ get0 (lives s') q = Z.max 0 (get0 (lives s) q - 1)
                ∧ ∀ p, p ≠ q → get0 (lives s') p = get0 (lives s) p)
       ∧ (get0 (lives s) q = 0 → db' = db)).
Proof.
  split.
  - intros reqs g s p Hload.
    assert (Hwf : wf_state s).
    { eapply (reachable_wf (run reqs ∅).1); [by exists reqs | done]. }
    destruct Hwf as (_ & _ & Hl & _).
    split.
    + unfold get0. destruct (lives s !! p) as [v|] eqn:Hv; simpl; [|lia].
      by eapply Hl.
    + intros v Hv. by eapply Hl.
  - intros g q typed el rd now db db' s resp Hload Hrun. split.
    + intros ex ty t e lv cr q' ->.
      apply submit_word_RSubmit in Hrun
        as (s0 & Hload0 & Hq & _ & Hpos & _ & _ & _ & _ & _ & -> & _ & _).
      injection Hq as <-. rewrite Hload in Hload0. injection Hload0 as <-.
      exists (resolve_submission s q false now).
      split; [apply load_save_eq|].
      rewrite resolve_lives_failed.
      repeat split; try lia.
      intros p Hne. by apply resolve_lives_other.
    + intros Hz.
      rewrite (submit_word_eliminated g q typed el rd now db s) in Hrun
        by (done || lia).
      by simplify_eq.
Qed.

(** ** Eliminated players *)

(** C3: once [p] has no life left in session [g], an explicit word request
    for [p] is answered with an error, no word request hands a word to [p] or
    changes the word owed by [p], a submission by [p] is answered with an
    error and leaves the table unchanged, and this stays so along every later
    sequence of requests that does not create session [g] anew: [p] keeps
    zero lives, is never handed a word and never has a submission accepted. *)
Theorem C3_eliminated_excluded (g p : string) (db : DB) (s : State) :
  load_game_state g db = Some s → get0 (lives s) p = 0 →
  (∀ (raw : string) (rnd : nat) (now : string),
     raw ≠ "" → strip raw = p →
     ∃ e c, Route.get_word g (Some raw) rnd now db = (db, RError e c))
  ∧ (∀ (arg : option string) (rnd : nat) (now : string),
       serves_player p (Route.get_word g arg rnd now db).2 = false
       ∧ eliminated_in g p (last_assigned_word s !! p)
           (Route.get_word g arg rnd now db).1)
  ∧ (∀ (typed : string) (el : pyfloat) (rd : option Z) (now : string),
       ∃ e c, Route.submit_word g (Some p) typed el rd now db = (db, RError e c))
  ∧ (∀ reqs : list request,
       Forall (fun req => ¬ (is_create req = true ∧ request_game req = g)) reqs →
       eliminated_in g p (last_assigned_word s !! p) (run reqs db).1
       ∧ Forall2 (fun req resp =>
                    request_game req = g → serves_player p resp = false)
                 reqs (run reqs db).2).
Proof.
  intros Hload Hz.
  assert (Hel : eliminated_in g p (last_assigned_word s !! p) db)
    by (by exists s).
  split; [|split; [|split]].
  - intros raw rnd now Hraw Hp. unfold Route.get_word. rewrite Hload.
    destruct (_ <=? _); [by eauto|].
    unfold select_player. apply truthy_true in Hraw. rewrite Hraw, Hp.
    replace (get0 (lives s) p <=? 0) with true
      by (symmetry; apply Z.leb_le; lia).
    rewrite orb_true_r. by eauto.
  - intros arg rnd now.
    destruct (handle_eliminated g p _ (GetWord g arg rnd now) db Hel)
      as [H1 H2]; [by intros [? _]|].
    split; [by apply H2 | exact H1].
  - intros typed el rd now.
    rewrite (submit_word_eliminated g p typed el rd now db s) by (done || lia).
    by eauto.
  - intros reqs Hnc. by apply run_eliminated.
Qed.

(** ** The success flag *)


(** ** Word assignment *)

(** C5: a served word request returns a word of the current round's pool.
    When some pool word is not yet in [used_words_in_round] the returned word
    is not in it either and is added to it; when every pool word is already
    used the set is reset and holds just the returned word afterwards.  The
    word is recorded as the word owed by the served player. *)
Theorem C5_word_choice (g : string) (arg : option string) (rnd : nat)
    (now : string) (db : DB) (s : State) (w : string) (r t : Z) (q : string)
    (lv : gmap string Z) (pl al : list string) :
  load_game_state g db = Some s →
  (Route.get_word g arg rnd now db).2 = RWord w r t q lv pl al →
  ∃ (s' : State) (pool : list string),
    load_game_state g (Route.get_word g arg rnd now db).1 = Some s'
    ∧ py_index WORD_POOLS (current_round s) = Some pool
    ∧ (0 ≤ current_round s → WORD_POOLS !! Z.to_nat (current_round s) = Some pool)
    ∧ w ∈ pool
    ∧ ((∃ u, u ∈ pool ∧ u ∉ used_words_in_round s) →
       (w ∉ used_words_in_round s)
       ∧ used_words_in_round s' = {[w]} ∪ used_words_in_round s)
    ∧ ((∀ u, u ∈ pool → u ∈ used_words_in_round s) →
       used_words_in_round s' = {[w]})
    ∧ last_assigned_word s' = <[q := w]> (last_assigned_word s)
    ∧ last_assigned_word s' !! q = Some w
    ∧ w ∈ used_words_in_round s'.
Proof.
  intros Hload Hresp.
  destruct (Route.get_word g arg rnd now db) as [db' resp] eqn:Hrun.
  simpl in *. subst resp.
  apply get_word_RWord in Hrun
    as (s0 & pool & Hload0 & -> & _ & _ & _ & Hpool & Hw & -> & _).
  rewrite Hload in Hload0. injection Hload0 as <-.
  cbv zeta in Hw.
  set (unused := unused_words (used_words_in_round s) pool) in *.
  eexists _, pool. split; [apply load_save_eq|]. simpl.
  split; [done|].
  split; [intros Hr; by rewrite <- py_index_nonneg|].
  assert (Hin : w ∈ pool).
  { apply choice_elem in Hw. destruct (is_nil unused); [done|].
    by apply elem_of_unused_words in Hw as [? _]. }
  split; [done|].
  split; [|split; [|split; [done|split]]].
  - intros (u & Hu & Hnu).
    assert (Hne : is_nil unused = false).
    { apply is_nil_false. intros Hnil.
      apply (proj1 (unused_words_nil _ _)) with (w := u) in Hnil; done. }
    rewrite Hne in Hw |- *. apply choice_elem in Hw.
    by apply elem_of_unused_words in Hw as [_ ?].
  - intros Hall.
    assert (Hnil : is_nil unused = true)
      by (by apply is_nil_true, unused_words_nil).
    rewrite Hnil. by rewrite union_empty_r_L.
  - by rewrite lookup_insert_eq.
  - set_solver.
Qed.

(** C6: in a reachable table, take a word request that names no player (no
    parameter, or an empty one).  Whenever it is served, the served player is
    the first player of [turn_order] who is alive and owes no word, or, when
    every alive player of [turn_order] owes a word, the first alive player of
    [turn_order].  When the round is below the pool count the request is
    indeed served to that player.  When no player of the roster is alive the
    request is answered with an error (with "No alive players." when the
    round is below the pool count) and the table is unchanged. *)
Theorem C6_auto_assignment (g : string) (arg : option string) (rnd : nat)
    (now : string) (db : DB) (s : State) :
  reachable db → load_game_state g db = Some s →
  arg = None ∨ arg = Some "" →
  (∀ (w : string) (r t : Z) (q : string) (lv : gmap string Z)
     (pl al : list string),
     (Route.get_word g arg rnd now db).2 = RWord w r t q lv pl al →
     first_such (fun p => alive s p ∧ ¬ owes_word s p) (turn_order s) q
     ∨ ((∀ x, x ∈ turn_order s → alive s x → owes_word s x)
        ∧ first_such (alive s) (turn_order s) q))
  ∧ (current_round s < Z.of_nat (length WORD_POOLS) →
     (∀ p, first_such (fun p => alive s p ∧ ¬ owes_word s p) (turn_order s) p →
           served_to s p (Route.get_word g arg rnd now db))
     ∧ (∀ p, (∀ x, x ∈ turn_order s → alive s x → owes_word s x) →
             first_such (alive s) (turn_order s) p →
             served_to s p (Route.get_word g arg rnd now db)))
  ∧ (alive_players (players s) (lives s) = [] →
     is_error (Route.get_word g arg rnd now db).2 = true
     ∧ (Route.get_word g arg rnd now db).1 = db
     ∧ (current_round s < Z.of_nat (length WORD_POOLS) →
        Route.get_word g arg rnd now db = (db, RError "No alive players." 400))).
Proof.
  intros Hreach Hload Harg.
  assert (Hwf : wf_state s) by (by eapply reachable_wf).
  destruct Hwf as (Hto & Hnames & _ & Hr0 & _).
  rewrite length_WORD_POOLS.
  assert (Hfree : ∀ p,
            List.find (fun p => (0 <? get0 (lives s) p)
                        && negb (bool_decide (is_Some (last_assigned_word s !! p))))
                      (turn_order s) = Some p
            ↔ first_such (fun p => alive s p ∧ ¬ owes_word s p) (turn_order s) p).
  { intros p. apply first_such_find. apply alive_unassigned_spec. }
  assert (Hany : ∀ p,
            List.find (fun p => 0 <? get0 (lives s) p) (turn_order s) = Some p
            ↔ first_such (alive s) (turn_order s) p).
  { intros p. apply first_such_find. apply alive_spec. }
  assert (Hbusy :
            List.find (fun p => (0 <? get0 (lives s) p)
                        && negb (bool_decide (is_Some (last_assigned_word s !! p))))
                      (turn_order s) = None
            ↔ ∀ x, x ∈ turn_order s → alive s x → owes_word s x).
  { split.
    - intros Hnone x Hx Hax.
      destruct (decide (owes_word s x)) as [|Hno]; [done|].
      pose proof (find_none_all _ _ Hnone x Hx) as Hf.
      apply not_true_iff_false in Hf. exfalso. apply Hf.
      by apply alive_unassigned_spec.
    - intros Hall. apply find_nobody. intros x Hx.
      apply not_true_iff_false. intros Hf.
      apply alive_unassigned_spec in Hf as [Hax Hno]. by apply Hno, Hall. }
  assert (Hserve : current_round s < 5 →
            ∀ p, p ∈ turn_order s → auto_player s = Some p →
                 served_to s p (Route.get_word g arg rnd now db)).
  { intros Hr p Hp Hauto. apply get_word_serves; [done | lia | |].
    - by rewrite select_player_auto, Hauto.
    - rewrite Hto in Hp. rewrite Forall_forall in Hnames.
      by apply Hnames in Hp as [? _]. }
  assert (Hmem : ∀ (P : string → Prop) p, first_such P (turn_order s) p →
                   p ∈ turn_order s).
  { intros P p (pre & post & -> & _). apply elem_of_app. right. left. }
  split; [|split].
  - intros w r t q lv pl al Hresp.
    destruct (Route.get_word g arg rnd now db) as [db' resp] eqn:Hrun.
    simpl in Hresp. subst resp.
    apply get_word_RWord in Hrun
      as (s0 & pool & Hload0 & _ & _ & Hsel & _).
    rewrite Hload in Hload0. injection Hload0 as <-.
    rewrite select_player_auto in Hsel by done.
    injection Hsel as Hauto. unfold auto_player in Hauto.
    destruct (find _ (turn_order s)) as [x|] eqn:Hfind.
    + injection Hauto as ->. left. by apply Hfree.
    + right. split; [by apply Hbusy | by apply Hany].
  - intros Hr. split.
    + intros p Hp. apply Hserve; [done | by eapply Hmem |].
      unfold auto_player. apply Hfree in Hp. by rewrite Hp.
    + intros p Hall Hp. apply Hserve; [done | by eapply Hmem |].
      unfold auto_player. apply Hbusy in Hall. rewrite Hall. by apply Hany.
  - intros Hnil.
    assert (Hdead : ∀ x, x ∈ turn_order s → (0 <? get0 (lives s) x) = false).
    { intros x Hx. apply Z.ltb_ge.
      destruct (Z.lt_ge_cases 0 (get0 (lives s) x)) as [Hlx|]; [|lia].
      assert (Hin : x ∈ alive_players (players s) (lives s)).
      { apply elem_of_alive_players. by rewrite <- Hto. }
      rewrite Hnil in Hin. by apply elem_of_nil in Hin. }
    assert (Hauto : auto_player s = None).
    { unfold auto_player. rewrite find_nobody; [by apply find_nobody|].
      intros x Hx. by rewrite (Hdead x Hx). }
    unfold Route.get_word. rewrite Hload.
    rewrite select_player_auto, Hauto by done.
    destruct (Z.leb_spec (Z.of_nat (length WORD_POOLS)) (current_round s))
      as [Hge|Hlt]; simpl.
    + rewrite length_WORD_POOLS in Hge. repeat split. intros; lia.
    + by repeat split.
Qed.

(** ** Session creation *)

(** C7 (amended): the stored names are the input names trimmed, with the
    entries that are empty after trimming discarded, in input order and with
    repetitions kept.  The request is answered with an error, and the table
    left as it was, exactly when that list is empty; otherwise the new
    session has that list as [players] and as [turn_order], three lives for
    each of its names and for no other name, round 0, and empty
    [played_this_round], [last_assigned_word], [used_words_in_round] and
    history. *)
Theorem C7_create_game (g now : string) (raw : list string) (db : DB) :
  let pl := clean_players raw in
  pl = List.filter truthy (List.map strip raw)
  ∧ Forall (fun p => p ≠ "" ∧ strip p = p) pl
  ∧ (is_error (Route.create_game g now raw db).2 = true ↔ pl = [])
  ∧ (pl = [] →
     Route.create_game g now raw db = (db, RError "No players given." 400))
  ∧ (pl ≠ [] →
     ∃ s : State,
       Route.create_game g now raw db
       = (save_game_state g s db, RCreated g TIMERS pl)
       ∧ load_game_state g (Route.create_game g now raw db).1 = Some s
       ∧ players s = pl ∧ turn_order s = pl
       ∧ (∀ p, p ∈ pl → lives s !! p = Some 3)
       ∧ (∀ p, p ∉ pl → lives s !! p = None)
       ∧ current_round s = 0
       ∧ played_this_round s = ∅
       ∧ last_assigned_word s = ∅
       ∧ used_words_in_round s = ∅
       ∧ history s = []
       ∧ created_at s = now).
Proof.
  cbv zeta. split; [apply clean_players_filter_map|].
  split; [apply clean_players_trimmed|].
  unfold Route.create_game.
  destruct (clean_players raw) as [|x pl] eqn:Hpl; simpl.
  - repeat split; try done.
  - split; [split; discriminate|]. split; [discriminate|]. intros _.
    eexists. split; [reflexivity|]. rewrite load_save_eq.
    split; [reflexivity|]. simpl. repeat split.
    + intros p Hp. rewrite initial_lives_lookup. by rewrite decide_True.
    + intros p Hp. rewrite initial_lives_lookup. by rewrite decide_False.
Qed.

(** ** Exhausted rounds *)

(** C8: there are five pools; a word request on a session whose round is at
    least the pool count is answered with the error "No more rounds." and the
    table is unchanged.  A served word request comes from a session whose
    round indexes a pool, and in a reachable table that round lies between 0
    and the pool count. *)
Theorem C8_no_more_rounds :
  length WORD_POOLS = 5%nat
  ∧ (∀ (g : string) (arg : option string) (rnd : nat) (now : string) (db : DB)
       (s : State),
       load_game_state g db = Some s →
       Z.of_nat (length WORD_POOLS) ≤ current_round s →
       Route.get_word g arg rnd now db = (db, RError "No more rounds." 400))
  ∧ (∀ (g : string) (arg : option string) (rnd : nat) (now : string) (db : DB)
       (w : string) (r t : Z) (q : string) (lv : gmap string Z)
       (pl al : list string),
       (Route.get_word g arg rnd now db).2 = RWord w r t q lv pl al →
       ∃ s : State,
         load_game_state g db = Some s ∧ r = current_round s
         ∧ current_round s < Z.of_nat (length WORD_POOLS)
         ∧ is_Some (py_index WORD_POOLS (current_round s))
         ∧ (reachable db →
            0 ≤ current_round s
            ∧ is_Some (WORD_POOLS !! Z.to_nat (current_round s)))).
Proof.
  split; [reflexivity|]. split.
  - intros g arg rnd now db s Hload Hr. unfold Route.get_word. rewrite Hload.
    by destruct (Z.leb_spec (Z.of_nat (length WORD_POOLS)) (current_round s));
      [|lia].
  - intros g arg rnd now db w r t q lv pl al Hresp.
    destruct (Route.get_word g arg rnd now db) as [db' resp] eqn:Hrun.
    simpl in Hresp. subst resp.
    apply get_word_RWord in Hrun
      as (s & pool & Hload & -> & Hlt & _ & _ & Hpool & _).
    exists s. rewrite length_WORD_POOLS.
    repeat split; try done; try (by eexists).
    + assert (Hwf : wf_state s) by (by eapply reachable_wf).
      by destruct Hwf as (_ & _ & _ & ? & _).
    + assert (Hwf : wf_state s) by (by eapply reachable_wf).
      destruct Hwf as (_ & _ & _ & Hr0 & _).
      rewrite <- py_index_nonneg by done. by eexists.
Qed.

(** ** Queries *)

(** C9: for a stored session the status query returns its roster, lives and
    round, the history query returns its history in order, and neither
    changes the table; for an unknown identifier both are answered with the
    error "Game not found." and the table is unchanged as well. *)
Theorem C9_queries_read_only (g : string) (db : DB) :
  (∀ s : State,
     load_game_state g db = Some s →
     Route.status g db
     = (db, RStatus (players s) (lives s) (current_round s))
     ∧ Route.history g db = (db, RHistory (history s)))
  ∧ (load_game_state g db = None →
     Route.status g db = (db, RError "Game not found." 404)
     ∧ Route.history g db = (db, RError "Game not found." 404))
  ∧ (Route.status g db).1 = db
  ∧ (Route.history g db).1 = db
  ∧ (∀ g' : string,
       load_game_state g' (Route.status g db).1 = load_game_state g' db
       ∧ load_game_state g' (Route.history g db).1 = load_game_state g' db).
Proof.
  unfold Route.status, Route.history.
  destruct (load_game_state g db) as [s|] eqn:Hload; simpl.
  - split; [by intros s' [= <-]|]. by repeat split.
  - split; [done|]. by repeat split.
Qed.

(** ** Failed requests *)

(** C10: a word request or a submission answered with an error leaves the
    table exactly as it was, and the error is one of the listed ones; the
    table changes only when a word is served or a submission is evaluated. *)
Theorem C10_errors_atomic :
  (∀ (g : string) (arg : option string) (rnd : nat) (now : string)
     (db db' : DB) (e : string) (c : Z),
     Route.get_word g arg rnd now db = (db', RError e c) →
     db' = db ∧ (e, c) ∈ word_errors)
  ∧ (∀ (g : string) (parg : option string) (typed : string) (el : pyfloat)
       (rd : option Z) (now : string) (db db' : DB) (e : string) (c : Z),
       Route.submit_word g parg typed el rd now db = (db', RError e c) →
       db' = db ∧ (e, c) ∈ submit_errors)
  ∧ (∀ (g : string) (arg : option string) (rnd : nat) (now : string) (db : DB),
       (Route.get_word g arg rnd now db).1 ≠ db →
       ∃ w r t q lv pl al,
         (Route.get_word g arg rnd now db).2 = RWord w r t q lv pl al)
  ∧ (∀ (g : string) (parg : option string) (typed : string) (el : pyfloat)
       (rd : option Z) (now : string) (db : DB),
       (Route.submit_word g parg typed el rd now db).1 ≠ db →
       ∃ succ ex ty t e lv cr q,
         (Route.submit_word g parg typed el rd now db).2
         = RSubmit succ ex ty t e lv cr q).
Proof.
  split; [|split; [|split]].
  - intros. by eapply get_word_error.
  - intros. by eapply submit_word_error.
  - intros g arg rnd now db Hne.
    destruct (get_word_step g arg rnd now db)
      as [[Heq _] | (s & q & w & used & t & _ & _ & _ & _ & ->)]; [done|].
    simpl. by eexists _, _, _, _, _, _, _.
  - intros g parg typed el rd now db Hne.
    destruct (submit_word_step g parg typed el rd now db)
      as [[Heq _] | (s & q & ex & t & succ & _ & _ & _ & _ & _ & _ & ->)];
      [done|].
    simpl. by eexists _, _, _, _, _, _, _, _.
Qed.

(** * Further properties of the routes *)

(** ** Sessions step by step *)

Lemma select_player_member (s : State) (arg : option string) (q : string) :
  select_player s arg = inr (Some q) → q ∈ players s ∨ q ∈ turn_order s.
Proof.
  assert (Hauto : auto_player s = Some q → q ∈ turn_order s).
  { unfold auto_player. intros H.
    destruct (find _ (turn_order s)) as [x|] eqn:Hf.
    - injection H as ->. apply find_some in Hf as [Hf _].
      by apply list_elem_of_In.
    - apply find_some in H as [H _]. by apply list_elem_of_In. }
  unfold select_player. intros H.
  destruct arg as [raw|]; [|injection H as H; auto].
  destruct (truthy raw); [|injection H as H; auto].
  destruct (negb _ || _) eqn:Hc; [done|].
  injection H as <-. apply orb_false_iff in Hc as [Hc _].
  apply negb_false_iff, bool_decide_eq_true in Hc. by left.
Qed.

Lemma get_word_session (g : string) (arg : option string) (rnd : nat)
    (now : string) (db : DB) :
  ((Route.get_word g arg rnd now db).1 = db
   ∧ ∀ p, serves_player p (Route.get_word g arg rnd now db).2 = false)
  ∨ ∃ s s', load_game_state g db = Some s ∧ session_step s s'
            ∧ (Route.get_word g arg rnd now db).1 = save_game_state g s' db.
Proof.
  destruct (get_word_step g arg rnd now db)
    as [H | (s & q & w & used & t & Hload & _ & _ & _ & Hrun)]; [by left|].
  right. pose proof Hrun as Hrun'.
  apply get_word_RWord in Hrun'
    as (s0 & pool & Hload0 & _ & Hr & Hsel & Hq & Hpool & Hw & Hdb & _).
  rewrite Hload in Hload0. injection Hload0 as <-.
  cbv zeta in Hw, Hdb. eexists s, _. split; [done|].
  split; [by eapply (step_word s arg rnd now q w pool)|].
  rewrite Hrun. simpl. exact Hdb.
Qed.

Lemma submit_word_session (g : string) (parg : option string) (typed : string)
    (el : pyfloat) (rd : option Z) (now : string) (db : DB) :
  ((Route.submit_word g parg typed el rd now db).1 = db
   ∧ ∀ p, serves_player p (Route.submit_word g parg typed el rd now db).2 = false)
  ∨ ∃ s s', load_game_state g db = Some s ∧ session_step s s'
            ∧ (Route.submit_word g parg typed el rd now db).1
              = save_game_state g s' db.
Proof.
  destruct (submit_word_step g parg typed el rd now db)
    as [H | (s & q & ex & t & succ & Hload & _ & Hin & Hl & Hex & _ & ->)];
    [by left|].
  right. eexists s, _. split; [done|]. split; [|done].
  by eapply step_submit.
Qed.

(** Every request leaves each stored row alone or replaces the row of its
    own game, by a fresh session or by one step of the stored one. *)
Lemma handle_rows (req : request) (db : DB) :
  (handle req db).1 = db
  ∨ ∃ s', (handle req db).1 = save_game_state (request_game req) s' db
          ∧ ((is_create req = true
              ∧ ∃ raw now, clean_players raw ≠ []
                           ∧ s' = initial_state (clean_players raw) now)
             ∨ (is_create req = false
                ∧ ∃ s, load_game_state (request_game req) db = Some s
                       ∧ session_step s s')).
Proof.
  destruct req as [g now raw | g arg rnd now | g parg typed el rd now | g | g];
    simpl.
  - unfold Route.create_game.
    destruct (is_nil (clean_players raw)) eqn:Hnil; simpl; [by left|].
    right. eexists. split; [done|]. left. split; [done|].
    exists raw, now. split; [by apply is_nil_false | done].
  - destruct (get_word_session g arg rnd now db)
      as [[H _] | (s & s' & Hl & Hs & H)]; [by left|].
    right. exists s'. split; [done|]. right. split; [done|]. by exists s.
  - destruct (submit_word_session g parg typed el rd now db)
      as [[H _] | (s & s' & Hl & Hs & H)]; [by left|].
    right. exists s'. split; [done|]. right. split; [done|]. by exists s.
  - left. unfold Route.status. by destruct (load_game_state g db).
  - left. unfold Route.history. by destruct (load_game_state g db).
Qed.

Lemma handle_session (g : string) (req : request) (db : DB) (s : State) :
  load_game_state g db = Some s → keeps_session g req →
  ∃ s', load_game_state g (handle req db).1 = Some s'
        ∧ (s' = s ∨ session_step s s').
Proof.
  intros Hload Hkeep.
  destruct (handle_rows req db) as [-> | (s' & -> & Hwhy)]; [by eauto|].
  destruct (decide (request_game req = g)) as [Heq|Hne].
  - destruct Hwhy as [[Hc _] | (_ & s0 & Hl0 & Hstep)].
    { exfalso. by apply Hkeep. }
    rewrite Heq in Hl0 |- *. rewrite Hload in Hl0. injection Hl0 as <-.
    exists s'. rewrite load_save_eq. by eauto.
  - exists s. rewrite load_save_ne by done. by eauto.
Qed.

Lemma run_session (g : string) (reqs : list request) (db : DB) (s : State) :
  load_game_state g db = Some s → Forall (keeps_session g) reqs →
  ∃ s', load_game_state g (run reqs db).1 = Some s' ∧ rtc session_step s s'.
Proof.
  revert db s. induction reqs as [|req reqs IH]; intros db s Hload Hkeep.
  - exists s. by split.
  - apply Forall_cons in Hkeep as [Hreq Hkeep]. rewrite run_cons. simpl.
    destruct (handle_session g req db s Hload Hreq) as (s1 & Hl1 & Hs1).
    destruct (IH _ _ Hl1 Hkeep) as (s2 & Hl2 & Hs2).
    exists s2. split; [done|].
    destruct Hs1 as [-> | Hs1]; [done | by eapply rtc_l].
Qed.

Lemma handle_origin (req : request) (db : DB) :
  (∀ g s, load_game_state g db = Some s → session_origin s) →
  ∀ g s, load_game_state g (handle req db).1 = Some s → session_origin s.
Proof.
  intros Hdb g s Hload.
  destruct (handle_rows req db) as [Heq | (s' & Heq & Hwhy)];
    rewrite Heq in Hload; [by eapply Hdb|].
  destruct (decide (request_game req = g)) as [<-|Hne].
  - rewrite load_save_eq in Hload. injection Hload as ->.
    destruct Hwhy as [(_ & raw & now & Hne & ->) | (_ & s0 & Hl0 & Hstep)].
    + by exists raw, now.
    + destruct (Hdb _ _ Hl0) as (raw & now & Hne & Hrtc).
      exists raw, now. split; [done|]. by eapply rtc_r.
  - rewrite load_save_ne in Hload by done. by eapply Hdb.
Qed.

Lemma reachable_origin (db : DB) (g : string) (s : State) :
  reachable db → load_game_state g db = Some s → session_origin s.
Proof.
  intros [reqs <-]. revert g s.
  assert (G : ∀ reqs db,
             (∀ g s, load_game_state g db = Some s → session_origin s) →
             ∀ g s, load_game_state g (run reqs db).1 = Some s → session_origin s).
  { clear. induction reqs as [|req reqs IH]; intros db Hdb; [done|].
    rewrite run_cons. simpl. by apply IH, handle_origin. }
  apply G. intros g s. by rewrite load_empty.
Qed.

(** ** What a step never undoes *)

Lemma session_step_le (s s' : State) : session_step s s' → session_le s s'.
Proof.
  intros [arg rnd now q w pool Hr Hsel Hq Hpool Hw | q ex succ now Hin Hl Hex].
  - repeat split; simpl; try done; try lia. by apply prefix_app_r.
  - unfold session_le.
    rewrite resolve_players, resolve_turn_order.
    repeat split.
    + unfold resolve_submission. by case_match.
    + destruct (resolve_round s q succ now) as [-> | ->]; lia.
    + destruct (resolve_submission_cases s q succ now)
        as [(_ & _ & _ & _ & ->) | (_ & _ & _ & _ & ->)];
        [by apply prefix_app_r | done].
    + intros p. rewrite resolve_lives. destruct succ; [done|].
      rewrite get0_insert. case_decide; [subst p; lia | done].
Qed.

Lemma session_le_refl (s : State) : session_le s s.
Proof. by repeat split. Qed.

Lemma session_le_trans (s1 s2 s3 : State) :
  session_le s1 s2 → session_le s2 s3 → session_le s1 s3.
Proof.
  intros (Hp & Ht & Hc & Hr & Hh & Hl) (Hp' & Ht' & Hc' & Hr' & Hh' & Hl').
  repeat split; try congruence; try lia.
  - by etrans.
  - intros p. specialize (Hl p). specialize (Hl' p). lia.
Qed.

Lemma session_steps_le (s s' : State) : rtc session_step s s' → session_le s s'.
Proof.
  induction 1 as [s | s1 s2 s3 Hstep _ IH]; [apply session_le_refl|].
  eapply session_le_trans; [by apply session_step_le | done].
Qed.

(** ** What every produced session satisfies *)

Lemma advance_count_snoc (h : list event) (e : event) :
  advance_count (h ++ [e])
  = advance_count h + (if is_advance e then 1 else 0).
Proof.
  unfold advance_count. rewrite List.filter_app, length_app. simpl.
  destruct (is_advance e); simpl; lia.
Qed.

Lemma dom_initial_lives (pl : list string) :
  dom (initial_lives pl) = list_to_set pl.
Proof.
  apply set_eq. intros p. rewrite elem_of_dom, initial_lives_lookup.
  rewrite elem_of_list_to_set. by case_decide; split.
Qed.

Lemma session_inv_initial (pl : list string) (now : string) :
  session_inv (initial_state pl now).
Proof.
  unfold session_inv. simpl. split; [done|].
  split; [apply dom_initial_lives|].
  split.
  { intros p v. rewrite initial_lives_lookup. case_decide; [|done].
    intros [= <-]. lia. }
  split.
  { intros p [w Hw]. by rewrite lookup_empty in Hw. }
  split; [apply empty_subseteq|]. split; [|done].
  intros w Hw. by apply not_elem_of_empty in Hw.
Qed.

Lemma session_inv_step (s s' : State) :
  session_inv s → session_step s s' → session_inv s'.
Proof.
  intros (Hto & Hdom & Hlv & Howe & Hpl & Hused & Hcnt)
    [arg rnd now q w pool Hr Hsel Hq Hpool Hw | q ex succ now Hin Hl Hex].
  - unfold session_inv. simpl.
    split; [done|]. split; [done|]. split; [done|]. split.
    { intros p Hp. destruct (decide (p = q)) as [->|Hne].
      - split; [|by eapply select_player_alive].
        destruct (select_player_member _ _ _ Hsel) as [?|?];
          [done | by rewrite <- Hto].
      - rewrite lookup_insert_ne in Hp by done. by apply Howe. }
    split; [done|]. split.
    { intros w' Hw'. apply elem_of_union in Hw' as [Hw'|Hw'].
      - apply elem_of_singleton in Hw' as ->. exists pool. split; [done|].
        apply choice_elem in Hw. destruct (is_nil _); [done|].
        by apply elem_of_unused_words in Hw as [? _].
      - destruct (is_nil _); [by apply not_elem_of_empty in Hw'|].
        by apply Hused. }
    rewrite advance_count_snoc. simpl. lia.
  - assert (Hqdom : q ∈ dom (lives s))
      by (rewrite Hdom; by apply elem_of_list_to_set).
    unfold session_inv.
    rewrite resolve_turn_order, resolve_players, resolve_last_assigned.
    split; [done|]. split.
    { rewrite resolve_lives. destruct succ; [done|].
      rewrite dom_insert_L, <- Hdom.
      by apply subseteq_union_1_L, singleton_subseteq_l. }
    split.
    { rewrite resolve_lives. destruct succ; [done|].
      apply map_Forall_insert_2; [|done].
      apply elem_of_dom in Hqdom as [v Hv].
      pose proof (Hlv _ _ Hv) as Hb. unfold get0 in *. rewrite Hv in *.
      simpl in *. lia. }
    split.
    { intros p [w Hw]. apply lookup_delete_Some in Hw as [Hne Hw].
      destruct (Howe p) as [Hp Hlp]; [by eexists|].
      split; [done|]. by rewrite resolve_lives_other. }
    destruct (resolve_submission_cases s q succ now)
      as [(_ & -> & -> & -> & ->) | (_ & -> & -> & -> & ->)].
    + split; [apply empty_subseteq|]. split.
      * intros w Hw. by apply not_elem_of_empty in Hw.
      * rewrite advance_count_snoc. simpl. lia.
    + split; [|by split].
      apply union_subseteq. split; [|done].
      apply singleton_subseteq_l. by apply elem_of_list_to_set.
Qed.

Lemma session_origin_inv (s : State) : session_origin s → session_inv s.
Proof.
  intros (raw & now & _ & Hrtc). revert s Hrtc.
  apply rtc_ind_r; [apply session_inv_initial|].
  intros s1 s2 _ Hstep IH. by eapply session_inv_step.
Qed.

Lemma reachable_inv (db : DB) (g : string) (s : State) :
  reachable db → load_game_state g db = Some s → session_inv s.
Proof. intros Hr Hl. by eapply session_origin_inv, reachable_origin. Qed.

(** ** Persistence *)

(** X1: saving a session and loading it back returns the session as it was
    (the sets survive the passage through JSON lists), the rows of other
    games are not touched, and a later save of the same game replaces the
    earlier one. *)
Theorem X1_save_load_round_trip (g : string) (s : State) (db : DB) :
  load_game_state g (save_game_state g s db) = Some s
  ∧ (∀ g', g' ≠ g →
       load_game_state g' (save_game_state g s db) = load_game_state g' db)
  ∧ (∀ s0, save_game_state g s (save_game_state g s0 db) = save_game_state g s db).
Proof.
  split; [apply load_save_eq|]. split.
  - intros g' Hne. by apply load_save_ne.
  - intros s0. unfold save_game_state. apply insert_insert_eq.
Qed.

(** X2: a run of requests none of which addresses game [g] leaves the row of
    [g] exactly as it was, present or absent. *)
Theorem X2_other_games_untouched (g : string) (reqs : list request) (db : DB) :
  Forall (fun req => request_game req ≠ g) reqs →
  (run reqs db).1 !! g = db !! g.
Proof.
  revert db. induction reqs as [|req reqs IH]; intros db Hreqs; [done|].
  apply Forall_cons in Hreqs as [Hreq Hreqs]. rewrite run_cons. simpl.
  rewrite IH by done.
  destruct (handle_rows req db) as [-> | (s' & -> & _)]; [done|].
  unfold save_game_state. by rewrite lookup_insert_ne.
Qed.

(** ** Along a run *)

(** X3: along any run that does not create the game anew, the session stays
    stored and its roster, turn order and creation time never change. *)
Theorem X3_roster_fixed (g : string) (reqs : list request) (db : DB) (s : State) :
  load_game_state g db = Some s → Forall (keeps_session g) reqs →
  ∃ s', load_game_state g (run reqs db).1 = Some s'
        ∧ players s' = players s
        ∧ turn_order s' = turn_order s
        ∧ created_at s' = created_at s.
Proof.
  intros Hload Hkeep.
  destruct (run_session g reqs db s Hload Hkeep) as (s' & Hl & Hrtc).
  apply session_steps_le in Hrtc as (? & ? & ? & _).
  by exists s'.
Qed.

(** X4: along any run that does not create the game anew, the round never
    decreases and the history only grows at its end; one request raises the
    round by at most one. *)
Theorem X4_round_and_history_grow (g : string) (db : DB) (s : State) :
  load_game_state g db = Some s →
  (∀ reqs : list request,
     Forall (keeps_session g) reqs →
     ∃ s', load_game_state g (run reqs db).1 = Some s'
           ∧ current_round s ≤ current_round s'
           ∧ history s `prefix_of` history s')
  ∧ (∀ req : request,
       keeps_session g req →
       ∃ s', load_game_state g (handle req db).1 = Some s'
             ∧ current_round s ≤ current_round s' ≤ current_round s + 1).
Proof.
  intros Hload. split.
  - intros reqs Hkeep.
    destruct (run_session g reqs db s Hload Hkeep) as (s' & Hl & Hrtc).
    apply session_steps_le in Hrtc as (_ & _ & _ & ? & ? & _).
    by exists s'.
  - intros req Hkeep.
    destruct (handle_session g req db s Hload Hkeep) as (s' & Hl & Hs).
    exists s'. split; [done|].
    destruct Hs as [-> | [arg rnd now q w pool _ _ _ _ _ | q ex succ now _ _ _]];
      simpl; try lia.
    destruct (resolve_round s q succ now) as [-> | ->]; lia.
Qed.

(** X5: along any run that does not create the game anew no player's life
    count ever grows: a lost life is never given back. *)
Theorem X5_lives_never_grow (g : string) (reqs : list request) (db : DB)
    (s : State) :
  load_game_state g db = Some s → Forall (keeps_session g) reqs →
  ∃ s', load_game_state g (run reqs db).1 = Some s'
        ∧ ∀ p, get0 (lives s') p ≤ get0 (lives s) p.
Proof.
  intros Hload Hkeep.
  destruct (run_session g reqs db s Hload Hkeep) as (s' & Hl & Hrtc).
  apply session_steps_le in Hrtc as (_ & _ & _ & _ & _ & ?).
  by exists s'.
Qed.

(** ** Stored sessions *)

Lemma pool_shape (pool : list string) :
  pool ∈ WORD_POOLS → NoDup pool ∧ length pool = 3%nat.
Proof.
  unfold WORD_POOLS. intros Hpool.
  repeat (apply elem_of_cons in Hpool as [->|Hpool];
          [split; [by apply (bool_decide_unpack _) | reflexivity]|]).
  by apply elem_of_nil in Hpool.
Qed.

(** X6: in every session the server can hold, the life counts are recorded
    for exactly the players of the roster and each lies between 0 and 3. *)
Theorem X6_lives_of_roster (db : DB) (g : string) (s : State) :
  reachable db → load_game_state g db = Some s →
  (∀ p, p ∈ players s → ∃ v, lives s !! p = Some v ∧ 0 ≤ v ≤ 3)
  ∧ (∀ p, p ∉ players s → lives s !! p = None).
Proof.
  intros Hreach Hload.
  destruct (reachable_inv db g s Hreach Hload) as (_ & Hdom & Hlv & _).
  split.
  - intros p Hp.
    assert (Hin : p ∈ dom (lives s))
      by (rewrite Hdom; by apply elem_of_list_to_set).
    apply elem_of_dom in Hin as [v Hv]. exists v. split; [done|].
    by eapply Hlv.
  - intros p Hp. apply not_elem_of_dom. rewrite Hdom.
    by rewrite elem_of_list_to_set.
Qed.

(** X7: in every session the server can hold, a player who owes a word is a
    player of the roster with a life left, the owed word is a pool word, and
    everyone marked as having played is a player of the roster. *)
Theorem X7_owed_words_of_alive_players (db : DB) (g : string) (s : State) :
  reachable db → load_game_state g db = Some s →
  (∀ p w, last_assigned_word s !! p = Some w →
          p ∈ players s ∧ 0 < get0 (lives s) p ∧ pool_word w)
  ∧ (∀ p, p ∈ played_this_round s → p ∈ players s).
Proof.
  intros Hreach Hload.
  destruct (reachable_inv db g s Hreach Hload)
    as (_ & _ & _ & Howe & Hpl & _).
  assert (Hwf : wf_state s) by (by eapply reachable_wf).
  destruct Hwf as (_ & _ & _ & _ & Hlast).
  split.
  - intros p w Hw. destruct (Howe p) as [? ?]; [by eexists|].
    repeat split; try done. by eapply Hlast.
  - intros p Hp. apply Hpl in Hp. by apply elem_of_list_to_set in Hp.
Qed.

(** X8: in every session the server can hold, the words marked as used all
    belong to the pool of the current round, so there are at most three of
    them, and none once the rounds are used up. *)
Theorem X8_used_words_of_current_pool (db : DB) (g : string) (s : State) :
  reachable db → load_game_state g db = Some s →
  (∀ w, w ∈ used_words_in_round s →
        ∃ pool, WORD_POOLS !! Z.to_nat (current_round s) = Some pool ∧ w ∈ pool)
  ∧ (size (used_words_in_round s) ≤ 3)%nat
  ∧ (Z.of_nat (length WORD_POOLS) ≤ current_round s → used_words_in_round s = ∅).
Proof.
  intros Hreach Hload.
  destruct (reachable_inv db g s Hreach Hload) as (_ & _ & _ & _ & _ & Hused & _).
  assert (Hwf : wf_state s) by (by eapply reachable_wf).
  destruct Hwf as (_ & _ & _ & Hr0 & _).
  split; [|split].
  - intros w Hw. destruct (Hused w Hw) as (pool & Hpool & Hin).
    exists pool. by rewrite <- py_index_nonneg.
  - destruct (py_index WORD_POOLS (current_round s)) as [pool|] eqn:Hpool.
    + destruct (pool_shape pool) as [Hnd Hlen]; [by eapply py_index_elem|].
      rewrite <- Hlen, <- (size_list_to_set (C := gset string) pool) by done.
      apply subseteq_size. intros w Hw.
      destruct (Hused w Hw) as (pool' & Hpool' & Hin).
      rewrite ?Hpool in Hpool'. injection Hpool' as <-.
      by apply elem_of_list_to_set.
    + assert (Hempty : used_words_in_round s = ∅).
      { apply set_eq. intros w. split; [|by intros ?%not_elem_of_empty].
        intros Hw. destruct (Hused w Hw) as (pool' & Hpool' & _).
        rewrite ?Hpool in Hpool'. discriminate Hpool'. }
      rewrite Hempty, size_empty. lia.
  - intros Hr. apply set_eq. intros w. split; [|by intros ?%not_elem_of_empty].
    intros Hw. destruct (Hused w Hw) as (pool & Hpool & _).
    apply py_index_Some_range in Hpool. lia.
Qed.

(** X9: in every session the server can hold, the round index equals the
    number of round-advance entries of the history. *)
Theorem X9_round_counts_advances (db : DB) (g : string) (s : State) :
  reachable db → load_game_state g db = Some s →
  current_round s = advance_count (history s).
Proof.
  intros Hreach Hload.
  by destruct (reachable_inv db g s Hreach Hload) as (_ & _ & _ & _ & _ & _ & ?).
Qed.

(** ** Requests in sequence *)

Lemma select_player_roster (s : State) (arg : option string) (q : string) :
  wf_state s → select_player s arg = inr (Some q) → q ∈ players s.
Proof.
  intros (Hto & _) Hsel.
  destruct (select_player_member s arg q Hsel) as [?|?];
    [done | by rewrite <- Hto].
Qed.

(** X10: in a reachable table, once a word request has been served to a
    player with word [w] and timer [t], a submission by that player whose
    text equals [w] up to letter case and surrounding whitespace, with an
    elapsed time of at most [t] and for the same round (given or left out),
    is judged a success and leaves all life counts as they were. *)
Theorem X10_word_then_correct_answer (g : string) (arg : option string)
    (rnd : nat) (now : string) (db db1 : DB) (w : string) (r t : Z)
    (q : string) (lv : gmap string Z) (pl al : list string) :
  reachable db →
  Route.get_word g arg rnd now db = (db1, RWord w r t q lv pl al) →
  ∀ (typed : string) (el : pyfloat) (rd : option Z) (now' : string),
    lower (strip typed) = lower w → float_le el t →
    rd = None ∨ rd = Some r →
    ∃ (cr : Z) (db2 : DB),
      Route.submit_word g (Some q) typed el rd now' db1
      = (db2, RSubmit true w typed t el lv cr q).
Proof.
  intros Hreach Hrun typed el rd now' Htext Htime Hrd.
  apply get_word_RWord in Hrun
    as (s & pool & Hload & -> & Hr & Hsel & Hq & Hpool & Hw & -> & Ht & -> & _).
  assert (Hwf : wf_state s) by (by eapply reachable_wf).
  pose proof (select_player_roster s arg q Hwf Hsel) as Hin.
  pose proof (select_player_alive s arg q Hsel) as Hl.
  destruct Hwf as (_ & _ & _ & Hr0 & _).
  set (s1 := assign_word s q w _ (current_round s) now).
  destruct (submit_word_serves g q typed el rd now'
              (save_game_state g s1 db) s1 w) as (timer & Htimer & Hsub).
  { apply load_save_eq. }
  { done. }
  { done. }
  { subst s1. simpl. apply lookup_insert_eq. }
  assert (Hdef : default (current_round s1) rd = current_round s)
    by (by destruct Hrd as [-> | ->]).
  rewrite Hdef, timer_for_in_range in Htimer
    by (rewrite length_TIMERS; lia).
  rewrite py_index_nonneg in Ht by done.
  rewrite Ht in Htimer. injection Htimer as <-.
  cbv zeta in Hsub.
  assert (Hsucc : submission_success typed w el t = true).
  { unfold submission_success. apply andb_true_iff. split.
    - by apply String.eqb_eq.
    - by apply float_le_int_spec. }
  rewrite Hsucc in Hsub. rewrite Hsub, resolve_lives.
  by eexists _, _.
Qed.

(** X11: an evaluated submission clears the word owed by the submitter and
    leaves the words owed by the other players alone; a further submission by
    the same player, whatever its content, is then answered with an error and
    changes nothing, until a new word is requested. *)
Theorem X11_one_answer_per_word (g : string) (parg : option string)
    (typed : string) (el : pyfloat) (rd : option Z) (now : string)
    (db db1 : DB) (succ : bool) (ex ty : string) (t : Z) (e : pyfloat)
    (lv : gmap string Z) (cr : Z) (q : string) :
  Route.submit_word g parg typed el rd now db
  = (db1, RSubmit succ ex ty t e lv cr q) →
  (∃ s s1, load_game_state g db = Some s ∧ load_game_state g db1 = Some s1
           ∧ last_assigned_word s1 !! q = None
           ∧ ∀ p, p ≠ q → last_assigned_word s1 !! p = last_assigned_word s !! p)
  ∧ ∀ (typed' : string) (el' : pyfloat) (rd' : option Z) (now' : string),
      ∃ msg,
        Route.submit_word g (Some q) typed' el' rd' now' db1
        = (db1, RError msg 400)
        ∧ (msg = "Player eliminated."
           ∨ msg = "No assigned word for player (request /word first).").
Proof.
  intros Hrun.
  apply submit_word_RSubmit in Hrun
    as (s & Hload & _ & Hin & _ & _ & _ & _ & _ & _ & -> & _ & _).
  set (s1 := resolve_submission s q succ now).
  assert (Hl1 : load_game_state g (save_game_state g s1 db) = Some s1)
    by apply load_save_eq.
  assert (Hnone : last_assigned_word s1 !! q = None).
  { subst s1. rewrite resolve_last_assigned. apply lookup_delete_eq. }
  split.
  - exists s, s1. repeat split; try done.
    intros p Hne. subst s1. rewrite resolve_last_assigned.
    by apply lookup_delete_ne.
  - intros typed' el' rd' now'.
    assert (Hin1 : q ∈ players s1) by (subst s1; by rewrite resolve_players).
    destruct (Z.le_gt_cases (get0 (lives s1) q) 0) as [Hdead|Halive].
    + rewrite (submit_word_eliminated g q typed' el' rd' now' _ s1) by done.
      rewrite (bool_decide_eq_true_2 _ Hin1). eexists. split; [done | by left].
    + unfold Route.submit_word. rewrite Hl1.
      rewrite (bool_decide_eq_true_2 _ Hin1). simpl.
      destruct (Z.leb_spec (get0 (lives s1) q) 0); [lia|].
      rewrite Hnone. eexists. split; [done | by right].
Qed.

(** X12: a served word request costs nothing: life counts, round, played
    set and roster are as before, the words owed by the other players are
    untouched, and exactly one assignment entry is appended to the history. *)
Theorem X12_word_request_frame (g : string) (arg : option string) (rnd : nat)
    (now : string) (db db1 : DB) (s : State) (w : string) (r t : Z)
    (q : string) (lv : gmap string Z) (pl al : list string) :
  load_game_state g db = Some s →
  Route.get_word g arg rnd now db = (db1, RWord w r t q lv pl al) →
  ∃ s1, load_game_state g db1 = Some s1
        ∧ lives s1 = lives s
        ∧ current_round s1 = current_round s
        ∧ played_this_round s1 = played_this_round s
        ∧ players s1 = players s
        ∧ turn_order s1 = turn_order s
        ∧ (∀ p, p ≠ q → last_assigned_word s1 !! p = last_assigned_word s !! p)
        ∧ history s1 = history s ++ [EvAssign (current_round s) q w now]
        ∧ 0 < get0 (lives s) q.
Proof.
  intros Hload Hrun.
  apply get_word_RWord in Hrun
    as (s0 & pool & Hload0 & -> & _ & Hsel & _ & _ & _ & -> & _).
  rewrite Hload in Hload0. injection Hload0 as <-.
  eexists. split; [apply load_save_eq|]. simpl.
  repeat split; try done.
  - intros p Hne. by apply lookup_insert_ne.
  - by eapply select_player_alive.
Qed.

(** ** Timers and missing fields *)

Lemma timer_for_bounds (r : Z) : ∃ t, timer_for r = Some t ∧ 1 ≤ t ≤ 5.
Proof.
  destruct (decide (0 ≤ r < Z.of_nat (length TIMERS))) as [Hr|Hr].
  - rewrite timer_for_in_range by done. rewrite length_TIMERS in Hr.
    assert (Hcase : r = 0 ∨ r = 1 ∨ r = 2 ∨ r = 3 ∨ r = 4) by lia.
    destruct Hcase as [-> | [-> | [-> | [-> | ->]]]];
      eexists; (split; [reflexivity | lia]).
  - rewrite timer_for_out_of_range by done.
    eexists. split; [reflexivity | lia].
Qed.

Lemma float_le_mono (e : pyfloat) (t t' : Z) :
  t ≤ t' → float_le e t → float_le e t'.
Proof.
  intros Ht. destruct e as [q| | |]; simpl; try done.
  intros Hq. eapply Qle_trans; [exact Hq|].
  rewrite <- Zle_Qle. exact Ht.
Qed.

Lemma pool_word_nonempty (w : string) : pool_word w → w ≠ "".
Proof.
  intros (pool & Hpool & Hw). unfold WORD_POOLS in Hpool.
  repeat (apply elem_of_cons in Hpool as [->|Hpool];
          [repeat (apply elem_of_cons in Hw as [->|Hw]; [discriminate|]);
           by apply elem_of_nil in Hw|]).
  by apply elem_of_nil in Hpool.
Qed.

Lemma pool_word_lower_nonempty (w : string) : pool_word w → lower w ≠ "".
Proof.
  intros Hw Hlow. apply lower_nonempty in Hlow. by apply (pool_word_nonempty w).
Qed.

(** X13: whatever round index a submission names, its timer is between 1
    and 5, so a submission with an elapsed time above 5 is never judged a
    success; a body without [elapsed] counts as 9999 and is never a success
    either, and in a reachable table neither is a body without [typed]. *)
Theorem X13_late_or_incomplete_fails :
  (∀ r : Z, ∃ t, timer_for r = Some t ∧ 1 ≤ t ≤ 5)
  ∧ (∀ (g : string) (parg : option string) (typed : string) (el : pyfloat)
       (rd : option Z) (now : string) (db : DB),
       ¬ float_le el 5 →
       success_of (Route.submit_word g parg typed el rd now db).2 ≠ Some true)
  ∧ (∀ (g : string) (parg typed : option string) (rd : option Z)
       (now : string) (db : DB),
       success_of (submit_word_body g parg typed None rd now db).2 ≠ Some true)
  ∧ (∀ (g : string) (parg : option string) (el : option pyfloat)
       (rd : option Z) (now : string) (db : DB),
       reachable db →
       success_of (submit_word_body g parg None el rd now db).2 ≠ Some true).
Proof.
  assert (Hlate : ∀ g parg typed el rd now db,
            ¬ float_le el 5 →
            success_of (Route.submit_word g parg typed el rd now db).2
            ≠ Some true).
  { intros g parg typed el rd now db Hel.
    destruct (Route.submit_word g parg typed el rd now db) as [db1 resp] eqn:Hrun.
    destruct resp as [| | |succ ex ty t e lv cr q| | |]; simpl; try discriminate.
    apply submit_word_RSubmit in Hrun
      as (s & _ & _ & _ & _ & _ & Ht & -> & _).
    destruct (timer_for_bounds (default (current_round s) rd)) as (t' & Ht' & Hb).
    rewrite Ht in Ht'. injection Ht' as <-.
    unfold submission_success. intros [= Hsucc].
    apply andb_true_iff in Hsucc as [_ Hle]. apply float_le_int_spec in Hle.
    apply Hel. eapply float_le_mono; [|exact Hle]. lia. }
  split; [exact timer_for_bounds|]. split; [exact Hlate|]. split.
  - intros g parg typed rd now db. unfold submit_word_body. simpl.
    apply Hlate. simpl. intros Hq.
    apply Qle_bool_iff in Hq. vm_compute in Hq. discriminate Hq.
  - intros g parg el rd now db Hreach. unfold submit_word_body. simpl.
    destruct (Route.submit_word g parg "" _ rd now db) as [db1 resp] eqn:Hrun.
    destruct resp as [| | |succ ex ty t e lv cr q| | |]; simpl; try discriminate.
    apply submit_word_RSubmit in Hrun
      as (s & Hload & _ & _ & _ & Hex & _ & -> & _).
    assert (Hwf : wf_state s) by (by eapply reachable_wf).
    destruct Hwf as (_ & _ & _ & _ & Hlast).
    unfold submission_success. intros [= Hsucc].
    apply andb_true_iff in Hsucc as [Heq _]. apply String.eqb_eq in Heq.
    change (strip "") with "" in Heq. rewrite lower_empty in Heq.
    eapply pool_word_lower_nonempty; [eapply Hlast; exact Hex | done].
Qed.

(** ** Sessions that are over *)

Section Frozen.
(** A class [T] of sessions on which both mutating routes answer with an
    error and write nothing. *)
Variable T : State → Prop.

Hypothesis T_word :
  ∀ (g : string) (arg : option string) (rnd : nat) (now : string) (db : DB)
    (s : State),
    load_game_state g db = Some s → T s →
    ∃ e c, Route.get_word g arg rnd now db = (db, RError e c).

Hypothesis T_submit :
  ∀ (g : string) (parg : option string) (typed : string) (el : pyfloat)
    (rd : option Z) (now : string) (db : DB) (s : State),
    load_game_state g db = Some s → T s →
    ∃ e c, Route.submit_word g parg typed el rd now db = (db, RError e c).

Lemma frozen_handle (g : string) (req : request) (db : DB) (s : State) :
  load_game_state g db = Some s → T s → keeps_session g req →
  load_game_state g (handle req db).1 = Some s
  ∧ answer_refused g req (handle req db).2.
Proof.
  intros Hload HT Hkeep.
  destruct (decide (request_game req = g)) as [Heq|Hne].
  - destruct req as [g' now raw | g' arg rnd now | g' parg typed el rd now
                    | g' | g']; simpl in Heq; subst g'; simpl.
    + exfalso. by apply Hkeep.
    + destruct (T_word g arg rnd now db s Hload HT) as (e & c & ->).
      split; [done|]. by intros _.
    + destruct (T_submit g parg typed el rd now db s Hload HT) as (e & c & ->).
      split; [done|]. by intros _.
    + unfold Route.status. rewrite Hload. by split.
    + unfold Route.history. rewrite Hload. by split.
  - split; [|by intros ?].
    destruct (handle_rows req db) as [-> | (s' & -> & _)]; [done|].
    by rewrite load_save_ne.
Qed.

Lemma frozen_run (g : string) (reqs : list request) (db : DB) (s : State) :
  load_game_state g db = Some s → T s → Forall (keeps_session g) reqs →
  load_game_state g (run reqs db).1 = Some s
  ∧ Forall2 (answer_refused g) reqs (run reqs db).2.
Proof.
  intros Hload HT. revert db Hload.
  induction reqs as [|req reqs IH]; intros db Hload Hkeep.
  - split; [done | constructor].
  - apply Forall_cons in Hkeep as [Hreq Hkeep]. rewrite run_cons. simpl.
    destruct (frozen_handle g req db s Hload HT Hreq) as [Hl1 Hans].
    destruct (IH _ Hl1 Hkeep) as [Hl2 Htail].
    split; [done | by constructor].
Qed.
End Frozen.

Lemma all_eliminated_word (g : string) (arg : option string) (rnd : nat)
    (now : string) (db : DB) (s : State) :
  load_game_state g db = Some s → all_eliminated s →
  ∃ e c, Route.get_word g arg rnd now db = (db, RError e c).
Proof.
  intros Hload Hdead. unfold Route.get_word. rewrite Hload.
  destruct (_ <=? _); [by eauto|].
  assert (Hnot : ∀ p, (0 <? get0 (lives s) p) = false).
  { intros p. apply Z.ltb_ge. apply Hdead. }
  assert (Hauto : auto_player s = None).
  { unfold auto_player. rewrite find_nobody; [by apply find_nobody|].
    intros x _. by rewrite Hnot. }
  unfold select_player.
  destruct arg as [raw|]; [destruct (truthy raw)|].
  - replace (get0 (lives s) (strip raw) <=? 0) with true
      by (symmetry; apply Z.leb_le, Hdead).
    rewrite orb_true_r. by eauto.
  - rewrite Hauto. simpl. by eauto.
  - rewrite Hauto. simpl. by eauto.
Qed.

Lemma all_eliminated_submit (g : string) (parg : option string)
    (typed : string) (el : pyfloat) (rd : option Z) (now : string) (db : DB)
    (s : State) :
  load_game_state g db = Some s → all_eliminated s →
  ∃ e c, Route.submit_word g parg typed el rd now db = (db, RError e c).
Proof.
  intros Hload Hdead. destruct parg as [q|].
  - rewrite (submit_word_eliminated g q typed el rd now db s) by done.
    by eauto.
  - unfold Route.submit_word. rewrite Hload. by eauto.
Qed.

Lemma rounds_finished_word (g : string) (arg : option string) (rnd : nat)
    (now : string) (db : DB) (s : State) :
  load_game_state g db = Some s → rounds_finished s →
  ∃ e c, Route.get_word g arg rnd now db = (db, RError e c).
Proof.
  intros Hload [Hr _]. unfold Route.get_word. rewrite Hload.
  destruct (Z.leb_spec (Z.of_nat (length WORD_POOLS)) (current_round s));
    [by eauto | lia].
Qed.

Lemma rounds_finished_submit (g : string) (parg : option string)
    (typed : string) (el : pyfloat) (rd : option Z) (now : string) (db : DB)
    (s : State) :
  load_game_state g db = Some s → rounds_finished s →
  ∃ e c, Route.submit_word g parg typed el rd now db = (db, RError e c).
Proof.
  intros Hload [_ Hnone]. unfold Route.submit_word. rewrite Hload.
  destruct parg as [q|]; [|by eauto].
  destruct (negb _); [by eauto|]. destruct (_ <=? _); [by eauto|].
  rewrite Hnone, lookup_empty. by eauto.
Qed.

(** X14: once no player of a session has a life left, the session never
    changes again: along any run that does not create the game anew every
    word request and every submission for it is answered with an error and
    the stored session stays exactly as it is. *)
Theorem X14_all_eliminated_is_final (g : string) (reqs : list request)
    (db : DB) (s : State) :
  load_game_state g db = Some s → all_eliminated s →
  Forall (keeps_session g) reqs →
  load_game_state g (run reqs db).1 = Some s
  ∧ Forall2 (answer_refused g) reqs (run reqs db).2.
Proof.
  apply (frozen_run all_eliminated all_eliminated_word all_eliminated_submit).
Qed.

(** X15: once the round is at least the pool count and nobody owes a word,
    the session never changes again: along any run that does not create the
    game anew every word request and every submission for it is answered
    with an error and the stored session stays exactly as it is. *)
Theorem X15_rounds_finished_is_final (g : string) (reqs : list request)
    (db : DB) (s : State) :
  load_game_state g db = Some s → rounds_finished s →
  Forall (keeps_session g) reqs →
  load_game_state g (run reqs db).1 = Some s
  ∧ Forall2 (answer_refused g) reqs (run reqs db).2.
Proof.
  apply (frozen_run rounds_finished rounds_finished_word rounds_finished_submit).
Qed.

(** ** A new game *)

Lemma filter_all {A : Type} (f : A → bool) (l : list A) :
  (∀ x, x ∈ l → f x = true) → List.filter f l = l.
Proof.
  induction l as [|y l IH]; intros Hl; simpl; [done|].
  rewrite (Hl y) by left. f_equal. apply IH. intros x Hx. apply Hl. by right.
Qed.

Lemma get0_initial_lives (pl : list string) (p : string) :
  p ∈ pl → get0 (initial_lives pl) p = 3.
Proof.
  intros Hp. unfold get0. rewrite initial_lives_lookup.
  by rewrite decide_True.
Qed.

(** X16: right after a game is created for a non-empty cleaned roster, the
    status query shows the roster with three lives each in round 0, the
    history is empty, and a word request naming no player is served to the
    first player of the roster, with a word of the first pool and a timer of
    5; everybody is listed as alive. *)
Theorem X16_new_game (g now : string) (raw : list string) (db : DB)
    (p : string) (rest : list string) :
  clean_players raw = p :: rest →
  let db1 := (Route.create_game g now raw db).1 in
  Route.status g db1 = (db1, RStatus (p :: rest) (initial_lives (p :: rest)) 0)
  ∧ Route.history g db1 = (db1, RHistory [])
  ∧ ∀ (rnd : nat) (now' : string),
      ∃ (w : string) (db2 : DB),
        Route.get_word g None rnd now' db1
        = (db2, RWord w 0 5 p (initial_lives (p :: rest)) (p :: rest) (p :: rest))
        ∧ w ∈ ["cat"; "dog"; "bat"].
Proof.
  intros Hclean. cbv zeta.
  assert (Hdb : (Route.create_game g now raw db).1
                = save_game_state g (initial_state (p :: rest) now) db).
  { unfold Route.create_game. by rewrite Hclean. }
  rewrite Hdb.
  set (s := initial_state (p :: rest) now).
  assert (Hload : load_game_state g (save_game_state g s db) = Some s)
    by apply load_save_eq.
  split; [|split].
  - unfold Route.status. by rewrite Hload.
  - unfold Route.history. by rewrite Hload.
  - intros rnd now'.
    assert (Hp : p ≠ "").
    { pose proof (clean_players_trimmed raw) as Hall. rewrite Hclean in Hall.
      by apply Forall_cons in Hall as [[? _] _]. }
    assert (Hsel : select_player s None = inr (Some p)).
    { simpl. unfold auto_player. simpl.
      rewrite get0_initial_lives by left. by rewrite lookup_empty. }
    destruct (get_word_serves g None rnd now' _ s p Hload) as (w & t & db2 & Hrun);
      [simpl; lia | done | done |].
    pose proof Hrun as Hinv.
    apply get_word_RWord in Hinv
      as (s0 & pool & Hload0 & _ & _ & _ & _ & Hpool & Hw & _ & Ht & _).
    rewrite Hload in Hload0. injection Hload0 as <-.
    simpl in Hpool, Ht. injection Hpool as <-. injection Ht as <-.
    assert (Halive : alive_players (players s) (lives s) = p :: rest).
    { apply filter_all. intros x Hx. apply Z.ltb_lt. simpl.
      rewrite get0_initial_lives by done. lia. }
    exists w, db2. split.
    + rewrite Hrun, Halive. reflexivity.
    + cbv zeta in Hw. apply choice_elem in Hw.
      destruct (is_nil _); [done|].
      by apply elem_of_unused_words in Hw as [? _].
Qed.

(** ** Requests that name a player or an unknown game *)

(** X18: in a reachable table with rounds left, a word request that names a
    player is judged on the trimmed name: it is served to that player when
    the trimmed name is a player of the roster with a life left, and is
    otherwise answered with "Player not valid or eliminated." and writes
    nothing; a name of whitespace only is refused as well, not treated as
    absent. *)
Theorem X18_named_word_request (g raw : string) (rnd : nat) (now : string)
    (db : DB) (s : State) :
  reachable db → load_game_state g db = Some s →
  current_round s < Z.of_nat (length WORD_POOLS) →
  raw ≠ "" →
  (strip raw ∈ players s → 0 < get0 (lives s) (strip raw) →
   served_to s (strip raw) (Route.get_word g (Some raw) rnd now db))
  ∧ (strip raw ∉ players s ∨ get0 (lives s) (strip raw) ≤ 0 →
     Route.get_word g (Some raw) rnd now db
     = (db, RError "Player not valid or eliminated." 400))
  ∧ (strip raw = "" →
     Route.get_word g (Some raw) rnd now db
     = (db, RError "Player not valid or eliminated." 400)).
Proof.
  intros Hreach Hload Hr Hraw.
  assert (Hwf : wf_state s) by (by eapply reachable_wf).
  destruct Hwf as (_ & Hnames & _ & Hr0 & _).
  rewrite length_WORD_POOLS in Hr.
  apply truthy_true in Hraw.
  assert (Hbad : strip raw ∉ players s ∨ get0 (lives s) (strip raw) ≤ 0 →
            Route.get_word g (Some raw) rnd now db
            = (db, RError "Player not valid or eliminated." 400)).
  { intros Hwhy. unfold Route.get_word. rewrite Hload.
    destruct (Z.leb_spec (Z.of_nat (length WORD_POOLS)) (current_round s)) as [Hge|_].
    { rewrite length_WORD_POOLS in Hge. lia. }
    unfold select_player. rewrite Hraw.
    destruct Hwhy as [Hout | Hdead].
    - by rewrite (bool_decide_eq_false_2 _ Hout).
    - replace (get0 (lives s) (strip raw) <=? 0) with true
        by (symmetry; by apply Z.leb_le).
      by rewrite orb_true_r. }
  split; [|split; [exact Hbad|]].
  - intros Hin Hl. apply get_word_serves; [done | lia | |].
    + unfold select_player. rewrite Hraw.
      rewrite (bool_decide_eq_true_2 _ Hin). simpl.
      by destruct (Z.leb_spec (get0 (lives s) (strip raw)) 0); [lia|].
    + rewrite Forall_forall in Hnames. by apply Hnames in Hin as [? _].
  - intros Hempty. apply Hbad. left. rewrite Hempty. intros Hin.
    rewrite Forall_forall in Hnames. by apply Hnames in Hin as [? _].
Qed.

Lemma unknown_game_handle (g : string) (req : request) (db : DB) :
  db !! g = None → keeps_session g req →
  (handle req db).1 !! g = None
  ∧ (request_game req = g → (handle req db).2 = RError "Game not found." 404).
Proof.
  intros Hnone Hkeep.
  assert (Hload : load_game_state g db = None).
  { unfold load_game_state. by rewrite Hnone. }
  destruct (decide (request_game req = g)) as [Heq|Hne].
  - destruct req as [g' now raw | g' arg rnd now | g' parg typed el rd now
                    | g' | g']; simpl in Heq; subst g'; simpl.
    + exfalso. by apply Hkeep.
    + unfold Route.get_word. by rewrite Hload.
    + unfold Route.submit_word. by rewrite Hload.
    + unfold Route.status. by rewrite Hload.
    + unfold Route.history. by rewrite Hload.
  - split; [|done].
    destruct (handle_rows req db) as [-> | (s' & -> & _)]; [done|].
    unfold save_game_state. by rewrite lookup_insert_ne.
Qed.

(** X19: a game that is not in the table is never brought into being by
    word requests, submissions or queries: along any run without a creation
    for that identifier the table keeps no row for it and every request
    addressed to it is answered with "Game not found." (404). *)
Theorem X19_unknown_game (g : string) (reqs : list request) (db : DB) :
  db !! g = None → Forall (keeps_session g) reqs →
  (run reqs db).1 !! g = None
  ∧ Forall2 (fun req resp =>
               request_game req = g → resp = RError "Game not found." 404)
            reqs (run reqs db).2.
Proof.
  revert db. induction reqs as [|req reqs IH]; intros db Hnone Hkeep.
  - split; [done | constructor].
  - apply Forall_cons in Hkeep as [Hreq Hkeep]. rewrite run_cons. simpl.
    destruct (unknown_game_handle g req db Hnone Hreq) as [Hn1 Hans].
    destruct (IH _ Hn1 Hkeep) as [Hn2 Htail].
    split; [done | by constructor].
Qed.

End Game.

(** * The sample runs

    The runs below are evaluated with [ascii_text].  Every text they
    lower-case is ASCII, where [ascii_lower] is [str.lower()]; the only
    characters outside ASCII are whitespace, which [strip] removes before
    [lower] is applied. *)

#[local] Existing Instance ascii_text.

(** Discharges [Forall (keeps_session g)] on an explicit list of requests. *)
Ltac keeps_all :=
  repeat first
    [ apply List.Forall_nil
    | apply List.Forall_cons;
      [ let Hc := fresh in let Hg := fresh in
        intros [Hc Hg]; simpl in Hc, Hg;
        first [discriminate Hc | discriminate Hg] | ] ].

(** ** Claims *)

Lemma lone_player_db_before : load_game_state "g" lone_player_db = Some lone_before.
Proof. vm_compute. reflexivity. Qed.

Lemma pair_db_before : load_game_state "g" pair_db = Some pair_before.
Proof. vm_compute. reflexivity. Qed.

(** C1, as stated, fails: [A] played and was then eliminated, so when [B]
    submits the played set is [{A, B}] while the alive set is [{B}] (before
    and after the submission), and the round advances all the same. *)
Lemma C1_counterexample :
  ¬ advances_iff_played_equals_alive pair_db "g" "B" "cat" (FFinite 0) None "t8".
Proof.
  intros H.
  assert (Hs' : load_game_state "g"
                  (Route.submit_word "g" (Some "B") "cat" (FFinite 0) None "t8"
                     pair_db).1 = Some pair_after)
    by (vm_compute; reflexivity).
  destruct (H _ _ pair_db_before Hs') as [Hadv _].
  assert (Heq := Hadv eq_refl).
  assert (Hin : "A" ∈ ({[ "B" ]} ∪ played_this_round pair_before : gset string)).
  { apply elem_of_union. right. simpl. by apply elem_of_singleton. }
  rewrite Heq in Hin. vm_compute in Hin. discriminate Hin.
Qed.

Lemma C1_round_advance_witness :
  ∃ s' : State,
    load_game_state "g"
      (Route.submit_word "g" (Some "A") "x" (FFinite 0) None "t6" lone_player_db).1
    = Some s'
    ∧ (current_round s' = current_round lone_before + 1
       ↔ ∀ p, p ∈ players s' → 0 < get0 (lives s') p →
              p ∈ ({[ "A" ]} ∪ played_this_round lone_before : gset string))
    ∧ (current_round s' = current_round lone_before + 1 →
       played_this_round s' = ∅ ∧ used_words_in_round s' = ∅
       ∧ history s' = history lone_before ++ [EvAdvance (current_round lone_before + 1) "t6"])
    ∧ (current_round s' ≠ current_round lone_before + 1 →
       current_round s' = current_round lone_before
       ∧ played_this_round s' = {[ "A" ]} ∪ played_this_round lone_before
       ∧ used_words_in_round s' = used_words_in_round lone_before
       ∧ history s' = history lone_before).
Proof.
  apply (C1_round_advance "g" "A" "x" (FFinite 0) None "t6" lone_player_db
           lone_before "planet").
  - vm_compute. reflexivity.
  - vm_compute. constructor.
  - vm_compute. reflexivity.
  - vm_compute. reflexivity.
Defined.

Lemma C2_lives_nonneg_witness :
  (0 ≤ get0 (lives lone_before) "A"
   ∧ ∀ v, lives lone_before !! "A" = Some v → 0 ≤ v)
  ∧ ∃ s', load_game_state "g" (save_game_state "g" lone_after lone_player_db) = Some s'
          ∧ 0 < get0 (lives lone_before) "A"
          ∧ get0 (lives s') "A" = get0 (lives lone_before) "A" - 1
          ∧ get0 (lives s') "A" = Z.max 0 (get0 (lives lone_before) "A" - 1)
          ∧ ∀ p, p ≠ "A" → get0 (lives s') p = get0 (lives lone_before) p.
Proof.
  split.
  - apply (proj1 C2_lives_nonneg lone_player_run "g" lone_before "A").
    vm_compute. reflexivity.
  - refine (proj1 (proj2 C2_lives_nonneg "g" "A" "x" (FFinite 0) None "t6"
                     lone_player_db
                     (save_game_state "g" lone_after lone_player_db)
                     lone_before
                     (RSubmit false "planet" "x" 3 (FFinite 0) (lives lone_after) 3 "A")
                     _ _)
                  "planet" "x" 3 (FFinite 0) (lives lone_after) 3 "A" eq_refl).
    + vm_compute. reflexivity.
    + vm_compute. reflexivity.
Defined.

Lemma C3_eliminated_excluded_witness :
  ∃ e c,
    Route.submit_word "g" (Some "A") "cat" (FFinite 0) None "t7" lone_over_db
    = (lone_over_db, RError e c).
Proof.
  refine (proj1 (proj2 (proj2
            (C3_eliminated_excluded "g" "A" lone_over_db lone_after _ _)))
            "cat" (FFinite 0) None "t7").
  - vm_compute. reflexivity.
  - vm_compute. reflexivity.
Defined.


Lemma fresh_db_state : load_game_state "g" fresh_db = Some fresh_state.
Proof. vm_compute. reflexivity. Qed.

Lemma C5_word_choice_witness :
  ∃ (s' : State) (pool : list string),
    load_game_state "g" (Route.get_word "g" None 1 "t1" fresh_db).1 = Some s'
    ∧ py_index WORD_POOLS (current_round fresh_state) = Some pool
    ∧ (0 ≤ current_round fresh_state →
       WORD_POOLS !! Z.to_nat (current_round fresh_state) = Some pool)
    ∧ "dog" ∈ pool
    ∧ ((∃ u, u ∈ pool ∧ u ∉ used_words_in_round fresh_state) →
       ("dog" ∉ used_words_in_round fresh_state)
       ∧ used_words_in_round s' = {[ "dog" ]} ∪ used_words_in_round fresh_state)
    ∧ ((∀ u, u ∈ pool → u ∈ used_words_in_round fresh_state) →
       used_words_in_round s' = {[ "dog" ]})
    ∧ last_assigned_word s' = <[ "A" := "dog" ]> (last_assigned_word fresh_state)
    ∧ last_assigned_word s' !! "A" = Some "dog"
    ∧ "dog" ∈ used_words_in_round s'.
Proof.
  apply (C5_word_choice "g" None 1 "t1" fresh_db fresh_state "dog" 0 5 "A"
           (initial_lives ["A"; "B"]) ["A"; "B"] ["A"; "B"]).
  - vm_compute. reflexivity.
  - vm_compute. reflexivity.
Defined.

Lemma C6_auto_assignment_witness :
  served_to fresh_state "A" (Route.get_word "g" None 1 "t1" fresh_db).
Proof.
  refine (proj1 (proj1 (proj2
            (C6_auto_assignment "g" None 1 "t1" fresh_db fresh_state _ _ _)) _)
            "A" _).
  - exists [CreateGame "g" "t0" ["A"; "B"]]. reflexivity.
  - vm_compute. reflexivity.
  - left. reflexivity.
  - vm_compute. reflexivity.
  - exists [], ["B"]. split; [reflexivity|]. split.
    + split; [vm_compute; reflexivity|]. intros [v Hv]. vm_compute in Hv.
      discriminate Hv.
    + intros x Hx. inversion Hx.
Defined.

(** C7, as stated, fails: the same name given twice is stored twice. *)
Lemma C7_counterexample :
  ¬ created_players_unique "g" "t0" ["A"; "A"] ∅.
Proof.
  intros H.
  specialize (H (mkState ["A"; "A"] (initial_lives ["A"; "A"]) 0 ["A"; "A"]
                   ∅ ∅ ∅ [] "t0")
                ltac:(vm_compute; reflexivity)).
  simpl in H. apply NoDup_cons in H as [Hnin _]. apply Hnin. left.
Qed.

Lemma C7_create_game_witness :
  (∃ s : State,
     Route.create_game "g" "t0"
       ["A"; NBSP +:+ "A "; EM_SPACE +:+ " "; ""; "B" +:+ IDEOGRAPHIC_SPACE] ∅
     = (save_game_state "g" s ∅, RCreated "g" TIMERS ["A"; "A"; "B"])
     ∧ players s = ["A"; "A"; "B"])
  ∧ Route.create_game "g" "t0" [EM_SPACE; ""; NBSP +:+ " "] ∅
    = (∅, RError "No players given." 400).
Proof.
  split.
  - destruct (C7_create_game "g" "t0"
                ["A"; NBSP +:+ "A "; EM_SPACE +:+ " "; ""; "B" +:+ IDEOGRAPHIC_SPACE]
                ∅)
      as (_ & _ & _ & _ & H).
    destruct (H ltac:(vm_compute; discriminate)) as (s & Hrun & _ & Hpl & _).
    exists s. split; [exact Hrun | exact Hpl].
  - destruct (C7_create_game "g" "t0" [EM_SPACE; ""; NBSP +:+ " "] ∅)
      as (_ & _ & _ & H & _).
    apply H. vm_compute. reflexivity.
Defined.

Lemma finished_db_state : load_game_state "g" finished_db = Some finished_state.
Proof. vm_compute. reflexivity. Qed.

Lemma C8_no_more_rounds_witness :
  Route.get_word "g" None 0 "t11" finished_db
  = (finished_db, RError "No more rounds." 400).
Proof.
  apply (proj1 (proj2 C8_no_more_rounds) "g" None 0%nat "t11" finished_db
           finished_state).
  - vm_compute. reflexivity.
  - vm_compute. discriminate.
Defined.

Lemma C9_queries_read_only_witness :
  Route.status "g" finished_db
  = (finished_db, RStatus (players finished_state) (lives finished_state)
                          (current_round finished_state))
  ∧ Route.history "g" finished_db
    = (finished_db, RHistory (history finished_state)).
Proof.
  apply (proj1 (C9_queries_read_only "g" finished_db) finished_state).
  vm_compute. reflexivity.
Defined.

Lemma C10_errors_atomic_witness :
  finished_db = finished_db ∧ ("No more rounds.", 400) ∈ word_errors.
Proof.
  apply (proj1 C10_errors_atomic "g" None 0%nat "t11" finished_db finished_db
           "No more rounds." 400).
  vm_compute. reflexivity.
Defined.

(** ** Further properties *)

Lemma X1_save_load_round_trip_witness :
  load_game_state "g" (save_game_state "h" pair_before fresh_db)
  = load_game_state "g" fresh_db.
Proof.
  apply (proj1 (proj2 (X1_save_load_round_trip "h" pair_before fresh_db)) "g").
  discriminate.
Defined.

Lemma X2_other_games_untouched_witness :
  (run [CreateGame "h" "u0" ["C"]; GetWord "h" None 2 "u1";
        SubmitWord "h" (Some "C") "bat" (FFinite 1) None "u2"] pair_db).1 !! "g"
  = pair_db !! "g".
Proof.
  apply (X2_other_games_untouched "g").
  repeat constructor; discriminate.
Defined.

Lemma X3_roster_fixed_witness :
  ∃ s', load_game_state "g" (run pair_next_run pair_db).1 = Some s'
        ∧ players s' = players pair_before
        ∧ turn_order s' = turn_order pair_before
        ∧ created_at s' = created_at pair_before.
Proof.
  apply (X3_roster_fixed "g" pair_next_run pair_db pair_before).
  - vm_compute. reflexivity.
  - unfold pair_next_run. keeps_all.
Defined.

Lemma X4_round_and_history_grow_witness :
  ∃ s', load_game_state "g" (run pair_next_run pair_db).1 = Some s'
        ∧ current_round pair_before ≤ current_round s'
        ∧ history pair_before `prefix_of` history s'.
Proof.
  refine (proj1 (X4_round_and_history_grow "g" pair_db pair_before _)
            pair_next_run _).
  - vm_compute. reflexivity.
  - unfold pair_next_run. keeps_all.
Defined.

Lemma X5_lives_never_grow_witness :
  ∃ s', load_game_state "g" (run pair_next_run pair_db).1 = Some s'
        ∧ ∀ p, get0 (lives s') p ≤ get0 (lives pair_before) p.
Proof.
  apply (X5_lives_never_grow "g" pair_next_run pair_db pair_before).
  - vm_compute. reflexivity.
  - unfold pair_next_run. keeps_all.
Defined.

Lemma pair_db_reachable : reachable pair_db.
Proof. by exists pair_run. Qed.

Lemma X6_lives_of_roster_witness :
  (∀ p, p ∈ players pair_before →
        ∃ v, lives pair_before !! p = Some v ∧ 0 ≤ v ≤ 3)
  ∧ (∀ p, p ∉ players pair_before → lives pair_before !! p = None).
Proof.
  apply (X6_lives_of_roster pair_db "g" pair_before).
  - exists pair_run. reflexivity.
  - vm_compute. reflexivity.
Defined.

Lemma X7_owed_words_of_alive_players_witness :
  (∀ p w, last_assigned_word pair_before !! p = Some w →
          p ∈ players pair_before ∧ 0 < get0 (lives pair_before) p
          ∧ pool_word w)
  ∧ (∀ p, p ∈ played_this_round pair_before → p ∈ players pair_before).
Proof.
  apply (X7_owed_words_of_alive_players pair_db "g" pair_before).
  - exists pair_run. reflexivity.
  - vm_compute. reflexivity.
Defined.

Lemma X8_used_words_of_current_pool_witness :
  (∀ w, w ∈ used_words_in_round pair_before →
        ∃ pool, WORD_POOLS !! Z.to_nat (current_round pair_before) = Some pool
                ∧ w ∈ pool)
  ∧ (size (used_words_in_round pair_before) ≤ 3)%nat
  ∧ (Z.of_nat (length WORD_POOLS) ≤ current_round pair_before →
     used_words_in_round pair_before = ∅).
Proof.
  apply (X8_used_words_of_current_pool pair_db "g" pair_before).
  - exists pair_run. reflexivity.
  - vm_compute. reflexivity.
Defined.

Lemma X9_round_counts_advances_witness :
  current_round finished_state = advance_count (history finished_state).
Proof.
  apply (X9_round_counts_advances finished_db "g" finished_state).
  - exists finished_run. reflexivity.
  - vm_compute. reflexivity.
Defined.

Lemma X10_word_then_correct_answer_witness :
  ∃ (cr : Z) (db2 : DB),
    Route.submit_word "g" (Some "A") " DOG " (FFinite 5) None "t2"
      (Route.get_word "g" None 1 "t1" fresh_db).1
    = (db2, RSubmit true "dog" " DOG " 5 (FFinite 5) (initial_lives ["A"; "B"])
                    cr "A").
Proof.
  refine (X10_word_then_correct_answer "g" None 1 "t1" fresh_db
            (Route.get_word "g" None 1 "t1" fresh_db).1 "dog" 0 5 "A"
            (initial_lives ["A"; "B"]) ["A"; "B"] ["A"; "B"] _ _
            " DOG " (FFinite 5) None "t2" _ _ _).
  - exists [CreateGame "g" "t0" ["A"; "B"]]. reflexivity.
  - vm_compute. reflexivity.
  - vm_compute. reflexivity.
  - vm_compute. discriminate.
  - left. reflexivity.
Defined.

Lemma X11_one_answer_per_word_witness :
  ∃ msg,
    Route.submit_word "g" (Some "B") "cat" (FFinite 0) None "t9"
      (Route.submit_word "g" (Some "B") "cat" (FFinite 0) None "t8" pair_db).1
    = ((Route.submit_word "g" (Some "B") "cat" (FFinite 0) None "t8" pair_db).1,
       RError msg 400)
    ∧ (msg = "Player eliminated."
       ∨ msg = "No assigned word for player (request /word first).").
Proof.
  refine (proj2 (X11_one_answer_per_word "g" (Some "B") "cat" (FFinite 0) None
                   "t8" pair_db
                   (Route.submit_word "g" (Some "B") "cat" (FFinite 0) None "t8"
                      pair_db).1
                   true "cat" "cat" 5 (FFinite 0) (lives pair_after) 1 "B" _)
            "cat" (FFinite 0) None "t9").
  vm_compute. reflexivity.
Defined.

Lemma X12_word_request_frame_witness :
  ∃ s1, load_game_state "g" (Route.get_word "g" None 1 "t1" fresh_db).1 = Some s1
        ∧ lives s1 = lives fresh_state
        ∧ current_round s1 = current_round fresh_state
        ∧ played_this_round s1 = played_this_round fresh_state
        ∧ players s1 = players fresh_state
        ∧ turn_order s1 = turn_order fresh_state
        ∧ (∀ p, p ≠ "A" →
                last_assigned_word s1 !! p = last_assigned_word fresh_state !! p)
        ∧ history s1
          = history fresh_state ++ [EvAssign (current_round fresh_state) "A" "dog" "t1"]
        ∧ 0 < get0 (lives fresh_state) "A".
Proof.
  apply (X12_word_request_frame "g" None 1 "t1" fresh_db
           (Route.get_word "g" None 1 "t1" fresh_db).1 fresh_state "dog" 0 5 "A"
           (initial_lives ["A"; "B"]) ["A"; "B"] ["A"; "B"]).
  - vm_compute. reflexivity.
  - vm_compute. reflexivity.
Defined.

Lemma X13_late_or_incomplete_fails_witness :
  success_of (Route.submit_word "g" (Some "B") "cat" (FFinite (11 # 2)) None
                "t8" pair_db).2 ≠ Some true
  ∧ success_of (submit_word_body "g" (Some "B") None (Some (FFinite 0)) None
                  "t8" pair_db).2 ≠ Some true.
Proof.
  split.
  - apply (proj1 (proj2 X13_late_or_incomplete_fails)).
    simpl. intros Hq. apply Qle_bool_iff in Hq. vm_compute in Hq.
    discriminate Hq.
  - apply (proj2 (proj2 (proj2 X13_late_or_incomplete_fails))).
    exists pair_run. reflexivity.
Defined.

Lemma X14_all_eliminated_is_final_witness :
  load_game_state "g"
    (run [GetWord "g" None 0 "t7"; GetWord "g" (Some "A") 0 "t8";
          SubmitWord "g" (Some "A") "cat" (FFinite 0) None "t9"]
         lone_over_db).1
  = Some lone_after
  ∧ Forall2 (answer_refused "g")
      [GetWord "g" None 0 "t7"; GetWord "g" (Some "A") 0 "t8";
       SubmitWord "g" (Some "A") "cat" (FFinite 0) None "t9"]
      (run [GetWord "g" None 0 "t7"; GetWord "g" (Some "A") 0 "t8";
            SubmitWord "g" (Some "A") "cat" (FFinite 0) None "t9"]
           lone_over_db).2.
Proof.
  apply (X14_all_eliminated_is_final "g").
  - vm_compute. reflexivity.
  - intros p. unfold get0. simpl.
    destruct (decide (p = "A")) as [->|Hne].
    + vm_compute. discriminate.
    + rewrite lookup_singleton_ne by done. simpl. lia.
  - keeps_all.
Defined.

Lemma X15_rounds_finished_is_final_witness :
  load_game_state "g"
    (run [GetWord "g" None 0 "t11";
          SubmitWord "g" (Some "A") "cat" (FFinite 0) None "t12"]
         finished_db).1
  = Some finished_state
  ∧ Forall2 (answer_refused "g")
      [GetWord "g" None 0 "t11";
       SubmitWord "g" (Some "A") "cat" (FFinite 0) None "t12"]
      (run [GetWord "g" None 0 "t11";
            SubmitWord "g" (Some "A") "cat" (FFinite 0) None "t12"]
           finished_db).2.
Proof.
  apply (X15_rounds_finished_is_final "g").
  - vm_compute. reflexivity.
  - split; [vm_compute; discriminate | reflexivity].
  - keeps_all.
Defined.

Lemma X16_new_game_witness :
  ∃ (w : string) (db2 : DB),
    Route.get_word "g" None 4 "t1"
      (Route.create_game "g" "t0" [EM_SPACE; NBSP +:+ "Zoe "; "Al"] ∅).1
    = (db2, RWord w 0 5 "Zoe" (initial_lives ["Zoe"; "Al"]) ["Zoe"; "Al"]
                  ["Zoe"; "Al"])
    ∧ w ∈ ["cat"; "dog"; "bat"].
Proof.
  refine (proj2 (proj2 (X16_new_game "g" "t0" [EM_SPACE; NBSP +:+ "Zoe "; "Al"] ∅
                          "Zoe" ["Al"] _)) 4%nat "t1").
  vm_compute. reflexivity.
Defined.

Lemma X18_named_word_request_witness :
  served_to pair_before "B"
    (Route.get_word "g" (Some ("B" +:+ NBSP)) 1 "t9" pair_db)
  ∧ Route.get_word "g" (Some EM_SPACE) 1 "t9" pair_db
    = (pair_db, RError "Player not valid or eliminated." 400).
Proof.
  split.
  - refine (proj1 (X18_named_word_request "g" ("B" +:+ NBSP) 1 "t9" pair_db
                     pair_before _ _ _ _) _ _).
    + exists pair_run. reflexivity.
    + vm_compute. reflexivity.
    + vm_compute. reflexivity.
    + discriminate.
    + vm_compute. right. left.
    + vm_compute. reflexivity.
  - refine (proj2 (proj2 (X18_named_word_request "g" EM_SPACE 1 "t9" pair_db
                            pair_before _ _ _ _)) _).
    + exists pair_run. reflexivity.
    + vm_compute. reflexivity.
    + vm_compute. reflexivity.
    + discriminate.
    + vm_compute. reflexivity.
Defined.

Lemma X19_unknown_game_witness :
  (run [GetWord "zz" None 0 "t1";
        SubmitWord "zz" (Some "A") "cat" (FFinite 0) None "t2";
        Status "zz"; History "zz"; GetWord "g" None 0 "t3"] fresh_db).1 !! "zz"
  = None
  ∧ Forall2 (fun req resp =>
               request_game req = "zz" → resp = RError "Game not found." 404)
      [GetWord "zz" None 0 "t1";
       SubmitWord "zz" (Some "A") "cat" (FFinite 0) None "t2";
       Status "zz"; History "zz"; GetWord "g" None 0 "t3"]
      (run [GetWord "zz" None 0 "t1";
            SubmitWord "zz" (Some "A") "cat" (FFinite 0) None "t2";
            Status "zz"; History "zz"; GetWord "g" None 0 "t3"] fresh_db).2.
Proof.
  apply (X19_unknown_game "zz").
  - vm_compute. reflexivity.
  - keeps_all.
Defined.
